(** * snmalloc: the per-slab metadata (src/mem/metaslab.h)

    A shallow embedding of [Metaslab]: the occupancy counter, the
    bump/free-list head, the fullness mark, the encoding of the free-list
    link stored in freed blocks, and the two debug validators
    ([debug_slab_acyclic_free_list], [debug_slab_invariant]).

    Machine integers are integers of [Z] with their wrap-around written
    out; memory is a store of machine words indexed by address. *)

From Stdlib Require Import ZArith List Lia String Bool Permutation.
Import ListNotations.
Local Open Scope Z_scope.

(** ** Build configuration and external collaborators

    The header is compiled under preprocessor switches and uses a few
    constants and functions declared in other headers (ds/bits.h,
    mem/allocconfig.h, mem/sizeclass.h).  They are collected here and every
    definition below is a function of them. *)

Record Config : Type := {
  (** [bits::is64()]: the machine word has 64 bits (otherwise 32). *)
  is64 : bool;
  (** [#ifdef CHECK_CLIENT]: the hardened build. *)
  CHECK_CLIENT : bool;
  (** [#ifdef NDEBUG]: the release build, [assert] compiled out. *)
  NDEBUG : bool;
  (** [#ifdef SNMALLOC_CHEAP_CHECKS]. *)
  SNMALLOC_CHEAP_CHECKS : bool;
  (** The size in bytes of a slab. *)
  SLAB_SIZE : Z;
  (** [sizeclass_to_size(sizeclass)]: the block size of a size class. *)
  sizeclass_to_size : Z -> Z;
  (** [get_initial_link(sizeclass, is_short)]: offset of the first block. *)
  get_initial_link : Z -> bool -> Z;
  (** [remove_cache_friendly_offset(offset, sizeclass)]. *)
  remove_cache_friendly_offset : Z -> Z -> Z
}.

(** Outcome of a call: it returns, it ends the process through [error], or
    an [assert] of a debug build fails. *)
Inductive result (A : Type) : Type :=
| Ok (a : A)
| Fatal (msg : string)
| AssertFail (cond : string).

Arguments Ok {A} a.
Arguments Fatal {A} msg.
Arguments AssertFail {A} cond.

Definition bind {A B : Type} (r : result A) (k : A -> result B) : result B :=
  match r with
  | Ok a => k a
  | Fatal msg => Fatal msg
  | AssertFail c => AssertFail c
  end.

Notation "x <- r ;; k" := (bind r (fun x => k))
  (at level 61, r at next level, right associativity).

(** [assert(c)]: checked unless NDEBUG is defined. *)
Definition assert (cfg : Config) (c : bool) (text : string) : result unit :=
  if NDEBUG cfg then Ok tt else if c then Ok tt else AssertFail text.

(** ** Machine integers *)

(** [bits::BITS]: the width of [size_t]. *)
Definition BITS (cfg : Config) : Z := if is64 cfg then 64 else 32.

(** Conversion to [size_t]. *)
Definition wrap (cfg : Config) (x : Z) : Z := x mod 2 ^ BITS cfg.

(** Conversion to [uint16_t]. *)
Definition u16 (x : Z) : Z := x mod 2 ^ 16.

(** Modelled from the spec: assignment to a [Mod<SLAB_SIZE, uint16_t>]
    (ds/helpers.h is not among the sources), a 16-bit offset whose value is
    taken modulo the slab size. *)
Definition Mod_set (cfg : Config) (v : Z) : Z := v mod SLAB_SIZE cfg.

(** Modelled from the spec: the conversion of a [Mod<SLAB_SIZE, uint16_t>]
    (ds/helpers.h is not among the sources) to [uint16_t], as in [head == 1]
    or [uint16_t curr = head]. *)
Definition Mod_get (cfg : Config) (v : Z) : Z := u16 (v mod SLAB_SIZE cfg).

(** ** Memory: machine words by address *)

Definition memory : Type := Z -> Z.

Definition load (cfg : Config) (mem : memory) (a : Z) : Z := wrap cfg (mem a).

Definition store (mem : memory) (a v : Z) : memory :=
  fun b => if b =? a then v else mem b.

(** [pointer_offset(base, diff)]. *)
Definition pointer_offset (base diff : Z) : Z := base + diff.

(** ** The Metaslab *)

Record Metaslab : Type := {
  used : Z;       (* uint16_t *)
  head : Z;       (* Mod<SLAB_SIZE, uint16_t> *)
  link : Z;       (* Mod<SLAB_SIZE, uint16_t> *)
  sizeclass : Z;  (* uint8_t *)
  next : Z        (* uint8_t *)
}.

Definition with_used (m : Metaslab) (v : Z) : Metaslab :=
  {| used := v; head := head m; link := link m;
     sizeclass := sizeclass m; next := next m |}.

Definition with_link (m : Metaslab) (v : Z) : Metaslab :=
  {| used := used m; head := head m; link := v;
     sizeclass := sizeclass m; next := next m |}.

Definition add_use (m : Metaslab) : Metaslab := with_used m (u16 (used m + 1)).

Definition sub_use (m : Metaslab) : Metaslab := with_used m (u16 (used m - 1)).

Definition set_unused (m : Metaslab) : Metaslab := with_used m 0.

Definition is_unused (m : Metaslab) : bool := used m =? 0.

Definition is_full (cfg : Config) (m : Metaslab) : bool :=
  Mod_get cfg (link m) =? 1.

Definition set_full (cfg : Config) (m : Metaslab) : result Metaslab :=
  _ <- assert cfg (Mod_get cfg (head m) =? 1) "head == 1" ;;
  _ <- assert cfg (negb (Mod_get cfg (link m) =? 1)) "link != 1" ;;
  Ok (with_link m (Mod_set cfg 1)).

Definition get_link (cfg : Config) (m : Metaslab) (slab : Z) : Z :=
  pointer_offset slab (Mod_get cfg (link m)).

(** ** The link stored in a free block *)

Definition POISON (cfg : Config) : Z :=
  if is64 cfg then 0xDEADBEEFDEAD0000 else 0xDEAD0000.

(** The word [store_next] writes for the offset [h]. *)
Definition encode_next (cfg : Config) (h : Z) : Z :=
  if CHECK_CLIENT cfg
  then Z.lxor (Z.lxor h (POISON cfg)) (wrap cfg (Z.shiftl h (BITS cfg - 16)))
  else h.

Definition store_next (cfg : Config) (mem : memory) (p h : Z) : memory :=
  store mem p (encode_next cfg h).

(** The value [follow_next] compares with 0xFFFF in the hardened build. *)
Definition recovered (cfg : Config) (w : Z) : Z :=
  Z.lxor (Z.lxor w (POISON cfg)) (wrap cfg (Z.shiftl w (BITS cfg - 16))).

Definition use_after_free : string :=
  "Detected memory corruption.  Use-after-free.".

(** [follow_next] on the word it has read. *)
Definition decode_next (cfg : Config) (w : Z) : result Z :=
  if CHECK_CLIENT cfg && (recovered cfg w >? 0xFFFF)
  then Fatal use_after_free
  else Ok (u16 w).

Definition follow_next (cfg : Config) (mem : memory) (node : Z) : result Z :=
  decode_next cfg (load cfg mem node).

(** ** The debug validators

    Both validators loop over the free list.  The loops are written with a
    step budget: [None] means the budget ran out before the loop ended. *)

Definition double_free : string :=
  "Free list contains a cycle, typically indicates double free.".

(** [(curr & 1) != 1] is false: [curr] is a bump pointer. *)
Definition bump_tagged (curr : Z) : bool := Z.land curr 1 =? 1.

(** The [while] loop of [debug_slab_acyclic_free_list]. *)
Fixpoint acyclic_loop (cfg : Config) (fuel : nat) (mem : memory)
    (slab curr curr_slow : Z) (both : bool) : option (result unit) :=
  if bump_tagged curr then Some (Ok tt)
  else
    match fuel with
    | O => None
    | S fuel' =>
        match follow_next cfg mem (pointer_offset slab curr) with
        | Ok curr' =>
            match (if both
                   then follow_next cfg mem (pointer_offset slab curr_slow)
                   else Ok curr_slow) with
            | Ok curr_slow' =>
                if curr' =? curr_slow'
                then Some (Fatal double_free)
                else acyclic_loop cfg fuel' mem slab curr' curr_slow'
                       (negb both)
            | Fatal msg => Some (Fatal msg)
            | AssertFail c => Some (AssertFail c)
            end
        | Fatal msg => Some (Fatal msg)
        | AssertFail c => Some (AssertFail c)
        end
    end.

Definition debug_slab_acyclic_free_list (cfg : Config) (fuel : nat)
    (mem : memory) (m : Metaslab) (slab : Z) : option (result unit) :=
  if NDEBUG cfg then Some (Ok tt)
  else
    acyclic_loop cfg fuel mem slab
      (Mod_get cfg (head m)) (Mod_get cfg (head m)) false.

(** One turn of the accounting loop of [debug_slab_invariant]: the checks on
    the block [curr], then the next block and the bytes accounted for. *)
Definition invariant_step (cfg : Config) (mem : memory) (m : Metaslab)
    (size offset slab curr accounted_for : Z) : result (Z * Z) :=
  let start := u16 (remove_cache_friendly_offset cfg curr (sizeclass m)) in
  _ <- assert cfg (wrap cfg (start - offset) mod size =? 0)
         "(start - offset) % size == 0" ;;
  let accounted_for := wrap cfg (accounted_for + size) in
  _ <- assert cfg (SLAB_SIZE cfg >=? accounted_for)
         "SLAB_SIZE >= accounted_for" ;;
  _ <- assert cfg (negb (curr =? Mod_get cfg (link m))) "curr != link" ;;
  curr' <- follow_next cfg mem (pointer_offset slab curr) ;;
  Ok (curr', accounted_for).

(** The accounting loop: the bump pointer that ends the list and the bytes
    accounted for. *)
Fixpoint invariant_loop (cfg : Config) (fuel : nat) (mem : memory)
    (m : Metaslab) (size offset slab curr accounted_for : Z)
    : option (result (Z * Z)) :=
  if bump_tagged curr then Some (Ok (curr, accounted_for))
  else
    match fuel with
    | O => None
    | S fuel' =>
        match invariant_step cfg mem m size offset slab curr accounted_for with
        | Ok (curr', accounted_for') =>
            invariant_loop cfg fuel' mem m size offset slab curr'
              accounted_for'
        | Fatal msg => Some (Fatal msg)
        | AssertFail c => Some (AssertFail c)
        end
    end.

(** What follows the accounting loop. *)
Definition invariant_tail (cfg : Config) (is_short : bool) (m : Metaslab)
    (size offset curr accounted_for : Z) : result unit :=
  accounted_for <-
    (if negb (curr =? 1)
     then
       let start :=
         u16 (remove_cache_friendly_offset cfg (Z.land curr (Z.lnot 1))
                (sizeclass m)) in
       _ <- assert cfg (wrap cfg (start - offset) mod size =? 0)
              "(start - offset) % size == 0" ;;
       let accounted_for :=
         wrap cfg (accounted_for + wrap cfg (SLAB_SIZE cfg - (curr - 1))) in
       _ <- assert cfg
              (Mod_get cfg (link m) =? get_initial_link cfg (sizeclass m) is_short)
              "link == get_initial_link(sizeclass, is_short)" ;;
       Ok accounted_for
     else Ok accounted_for) ;;
  _ <- assert cfg (negb (is_full cfg m)) "!is_full()" ;;
  let accounted_for := wrap cfg (accounted_for + size) in
  assert cfg (SLAB_SIZE cfg =? accounted_for) "SLAB_SIZE == accounted_for".

Definition debug_slab_invariant (cfg : Config) (fuel : nat) (is_short : bool)
    (mem : memory) (m : Metaslab) (slab : Z) : option (result unit) :=
  if NDEBUG cfg || SNMALLOC_CHEAP_CHECKS cfg then Some (Ok tt)
  else
    let size := wrap cfg (sizeclass_to_size cfg (sizeclass m)) in
    let offset := wrap cfg (get_initial_link cfg (sizeclass m) is_short) in
    let accounted_for := wrap cfg (used m * size + offset) in
    if is_full cfg m
    then Some (assert cfg (SLAB_SIZE cfg =? accounted_for)
                 "SLAB_SIZE == accounted_for")
    else
      match assert cfg (SLAB_SIZE cfg >? accounted_for)
              "SLAB_SIZE > accounted_for" with
      | Ok _ =>
          match debug_slab_acyclic_free_list cfg fuel mem m slab with
          | Some (Ok _) =>
              match invariant_loop cfg fuel mem m size offset slab
                      (Mod_get cfg (head m)) accounted_for with
              | Some (Ok (curr, accounted_for')) =>
                  Some (invariant_tail cfg is_short m size offset curr
                          accounted_for')
              | Some (Fatal msg) => Some (Fatal msg)
              | Some (AssertFail c) => Some (AssertFail c)
              | None => None
              end
          | other => other
          end
      | Fatal msg => Some (Fatal msg)
      | AssertFail c => Some (AssertFail c)
      end.

(** ** The free-list segment

    [segment cfg mem slab x nodes term]: starting at offset [x] and reading
    the links with [follow_next], the blocks [nodes] are met in this order
    and the bump pointer [term] ends the list. *)
Inductive segment (cfg : Config) (mem : memory) (slab : Z)
    : Z -> list Z -> Z -> Prop :=
| segment_end (x : Z) :
    bump_tagged x = true -> segment cfg mem slab x [] x
| segment_step (x y : Z) (nodes : list Z) (term : Z) :
    bump_tagged x = false ->
    follow_next cfg mem (pointer_offset slab x) = Ok y ->
    segment cfg mem slab y nodes term ->
    segment cfg mem slab x (x :: nodes) term.

(** [hops cfg mem slab n x y]: [n] links lead from the block [x] to [y],
    each one read without error from a block that is not a bump pointer. *)
Inductive hops (cfg : Config) (mem : memory) (slab : Z)
    : nat -> Z -> Z -> Prop :=
| hops_O (x : Z) : hops cfg mem slab O x x
| hops_S (n : nat) (x y z : Z) :
    bump_tagged x = false ->
    follow_next cfg mem (pointer_offset slab x) = Ok y ->
    hops cfg mem slab n y z ->
    hops cfg mem slab (S n) x z.

(** The list that starts at [x] runs into a cycle. *)
Definition cyclic (cfg : Config) (mem : memory) (slab x : Z) : Prop :=
  exists (i n : nat) (y : Z),
    hops cfg mem slab i x y /\ hops cfg mem slab (S n) y y.


(** Steps that are enough for the cycle check on any memory. *)
Definition acyclic_fuel : nat := Z.to_nat (2 * 2 ^ 16).

(** ** Accounting *)

Definition block_size (cfg : Config) (m : Metaslab) : Z :=
  sizeclass_to_size cfg (sizeclass m).

Definition initial_offset (cfg : Config) (is_short : bool) (m : Metaslab) : Z :=
  get_initial_link cfg (sizeclass m) is_short.

(** Bytes not yet handed out by bump allocation, given the bump pointer that
    ends the free list. *)
Definition bump_headroom (cfg : Config) (term : Z) : Z :=
  if term =? 1 then 0 else SLAB_SIZE cfg - (term - 1).

(** All the blocks of the slab are in use: they fill the slab from the
    initial offset on. *)
Definition every_block_used (cfg : Config) (is_short : bool) (m : Metaslab)
    : Prop :=
  used m * block_size cfg m + initial_offset cfg is_short m = SLAB_SIZE cfg.

(** The bytes the code accounts for: blocks in use, the offset of the first
    block, blocks on the free list, bump headroom, and the link block of a
    slab that is not full. *)
Definition accounted (cfg : Config) (is_short : bool) (m : Metaslab)
    (nodes : list Z) (term : Z) : Z :=
  used m * block_size cfg m + initial_offset cfg is_short m
  + Z.of_nat (List.length nodes) * block_size cfg m
  + bump_headroom cfg term + block_size cfg m.

(** The same sum without the offset of the first block. *)
Definition accounted_blocks_only (cfg : Config) (m : Metaslab)
    (nodes : list Z) (term : Z) : Z :=
  used m * block_size cfg m
  + Z.of_nat (List.length nodes) * block_size cfg m
  + bump_headroom cfg term + block_size cfg m.

(** The constants and size-class functions are in the range of their types:
    a slab of at most 2^16 bytes, blocks that fit in it, 16-bit offsets. *)
Definition in_range (cfg : Config) (is_short : bool) (m : Metaslab) : Prop :=
  2 <= SLAB_SIZE cfg <= 2 ^ 16 /\
  0 < block_size cfg m <= 2 ^ 16 /\
  0 <= initial_offset cfg is_short m < 2 ^ 16 /\
  0 <= used m < 2 ^ 16.

(** ** The operations on a slab

    The operations that carve a slab and that claim and release its blocks
    are in mem/superslab.h and mem/slab.h, which are not among the sources.
    They are modelled here from the spec and from what metaslab.h says of
    the fields they maintain. *)

Definition with_head (m : Metaslab) (v : Z) : Metaslab :=
  {| used := used m; head := v; link := link m;
     sizeclass := sizeclass m; next := next m |}.

(** A slab with its Metaslab, the memory, and the offsets of the blocks that
    are claimed.  The last is not data of the allocator: it records which
    blocks the callers hold, to say what a caller may release and write. *)
Record slab_state : Type := {
  meta : Metaslab;
  heap : memory;
  claimed : list Z
}.

(** Modelled from the spec: carving a slab for a size class (the external
    layer, not among the sources).  The spec has a fresh slab start with
    [used = 0], [link] at the initial offset and [head] a bump pointer; the
    pointer starts at the block behind the link block, which metaslab.h
    says is never bump allocated and which [debug_slab_invariant] accounts
    for apart from the bump headroom. *)
Definition carve (cfg : Config) (is_short : bool) (sc : Z) (mem : memory)
    : slab_state :=
  {| meta :=
       {| used := 0;
          head := Mod_set cfg (get_initial_link cfg sc is_short
                               + sizeclass_to_size cfg sc + 1);
          link := Mod_set cfg (get_initial_link cfg sc is_short);
          sizeclass := sc;
          next := 0 |};
     heap := mem;
     claimed := [] |}.

(** Modelled from the spec: claiming a block (mem/slab.h, not among the
    sources): [add_use], then the free list advances.  A head that is the
    offset of a block is handed out and replaced by the link stored in the
    block; a bump pointer hands out the block it points at and moves on by
    the block size, modulo the slab size; at the bump pointer 1 nothing is
    left but the link block, which is handed out, and the slab is marked by
    [set_full].  The result is the new state and the offset handed out. *)
Definition claim (cfg : Config) (slab : Z) (st : slab_state)
    : result (slab_state * Z) :=
  let m := add_use (meta st) in
  let h := Mod_get cfg (head m) in
  if bump_tagged h then
    if h =? 1 then
      m' <- set_full cfg m ;;
      Ok ({| meta := m'; heap := heap st;
             claimed := Mod_get cfg (link m) :: claimed st |},
          Mod_get cfg (link m))
    else
      Ok ({| meta :=
               with_head m
                 (Mod_set cfg (h + sizeclass_to_size cfg (sizeclass m)));
             heap := heap st;
             claimed := (h - 1) :: claimed st |},
          h - 1)
  else
    n <- follow_next cfg (heap st) (pointer_offset slab h) ;;
    Ok ({| meta := with_head m (Mod_set cfg n); heap := heap st;
           claimed := h :: claimed st |},
        h).

(** Modelled from the spec: releasing the block at offset [p] (mem/slab.h,
    not among the sources): [sub_use], then the block is inserted in the
    free list: it stores the old head and becomes the head.  A slab that
    was full has no link node: the block released becomes the link node.  A
    slab that becomes unused is retired: [None]. *)
Definition release (cfg : Config) (slab : Z) (st : slab_state) (p : Z)
    : option slab_state :=
  let was_full := is_full cfg (meta st) in
  let m := sub_use (meta st) in
  if is_unused m then None
  else if was_full then
    Some {| meta := with_link m (Mod_set cfg p); heap := heap st;
            claimed := remove Z.eq_dec p (claimed st) |}
  else
    Some {| meta := with_head m (Mod_set cfg p);
            heap := store_next cfg (heap st) (pointer_offset slab p)
                      (Mod_get cfg (head m));
            claimed := remove Z.eq_dec p (claimed st) |}.

(** Modelled from the spec: where memory is written while the slab is
    owned.  The address [a] is in a block the callers hold, or in the link
    node of a slab that is not full, which the list of slabs with space
    writes; the blocks of the free list are written by [release] only. *)
Definition writable (cfg : Config) (slab : Z) (st : slab_state) (a : Z)
    : Prop :=
  (exists p, In p (claimed st) /\
     slab + p <= a < slab + p + sizeclass_to_size cfg (sizeclass (meta st))) \/
  (is_full cfg (meta st) = false /\
   slab + Mod_get cfg (link (meta st)) <= a
   < slab + Mod_get cfg (link (meta st))
     + sizeclass_to_size cfg (sizeclass (meta st))).

(** Modelled from the spec: the states reached by the operations that claim
    and release blocks (mem/slab.h, not among the sources) under the
    documented discipline: a block is claimed from a slab that is not full,
    a block is released only while it is claimed, and memory is written only
    where [writable] says, not in the blocks of the free list. *)
Inductive reachable (cfg : Config) (is_short : bool) (slab sc : Z)
    : slab_state -> Prop :=
| reach_carve (mem : memory) :
    reachable cfg is_short slab sc (carve cfg is_short sc mem)
| reach_claim (st st' : slab_state) (p : Z) :
    reachable cfg is_short slab sc st ->
    is_full cfg (meta st) = false ->
    claim cfg slab st = Ok (st', p) ->
    reachable cfg is_short slab sc st'
| reach_release (st st' : slab_state) (p : Z) :
    reachable cfg is_short slab sc st ->
    In p (claimed st) ->
    release cfg slab st p = Some st' ->
    reachable cfg is_short slab sc st'
| reach_write (st : slab_state) (a v : Z) :
    reachable cfg is_short slab sc st ->
    writable cfg slab st a ->
    reachable cfg is_short slab sc
      {| meta := meta st; heap := store (heap st) a v;
         claimed := claimed st |}.

(** How many blocks a slab of the size class holds: the blocks lie from the
    initial offset to the end of the slab. *)
Definition blocks_in_slab (cfg : Config) (is_short : bool) (sc : Z) : Z :=
  (SLAB_SIZE cfg - get_initial_link cfg sc is_short) / sizeclass_to_size cfg sc.

(** The offset of the block of index [j]. *)
Definition block_at (cfg : Config) (is_short : bool) (sc : Z) (j : Z) : Z :=
  get_initial_link cfg sc is_short + j * sizeclass_to_size cfg sc.

(** [x] is the offset of a block of index below [k]. *)
Definition block_below (cfg : Config) (is_short : bool) (sc : Z) (k x : Z)
    : Prop :=
  exists j, 0 <= j < k /\ x = block_at cfg is_short sc j.

(** What the size-class table provides: slabs of at most 2^16 bytes, and
    blocks of an even size that tile the slab from an even initial offset. *)
Definition layout (cfg : Config) (is_short : bool) (sc : Z) : Prop :=
  2 <= SLAB_SIZE cfg <= 2 ^ 16 /\
  0 < sizeclass_to_size cfg sc /\
  sizeclass_to_size cfg sc mod 2 = 0 /\
  0 <= get_initial_link cfg sc is_short /\
  get_initial_link cfg sc is_short mod 2 = 0 /\
  1 <= blocks_in_slab cfg is_short sc /\
  SLAB_SIZE cfg
  = get_initial_link cfg sc is_short
    + blocks_in_slab cfg is_short sc * sizeclass_to_size cfg sc.

(** Removing the cache-friendly offset from the offset of a block leaves an
    offset on which the alignment test of [debug_slab_invariant] holds. *)
Definition blocks_aligned (cfg : Config) (is_short : bool) (sc : Z) : Prop :=
  forall j, 0 <= j < blocks_in_slab cfg is_short sc ->
    wrap cfg (u16 (remove_cache_friendly_offset cfg
                     (block_at cfg is_short sc j) sc)
              - wrap cfg (get_initial_link cfg sc is_short))
    mod wrap cfg (sizeclass_to_size cfg sc) = 0.

(** The same build compiled with the assertions and the full checks. *)
Definition with_debug_checks (cfg : Config) : Config :=
  {| is64 := is64 cfg; CHECK_CLIENT := CHECK_CLIENT cfg; NDEBUG := false;
     SNMALLOC_CHEAP_CHECKS := false; SLAB_SIZE := SLAB_SIZE cfg;
     sizeclass_to_size := sizeclass_to_size cfg;
     get_initial_link := get_initial_link cfg;
     remove_cache_friendly_offset := remove_cache_friendly_offset cfg |}.

(** The bump pointer at the block of index [k]; it is 1 behind the last
    block. *)
Definition bump_at (cfg : Config) (is_short : bool) (sc : Z) (k : Z) : Z :=
  if k =? blocks_in_slab cfg is_short sc then 1
  else block_at cfg is_short sc k + 1.

(** All the blocks of the slab are claimed. *)
Definition every_block_claimed (cfg : Config) (is_short : bool) (sc : Z)
    (st : slab_state) : Prop :=
  forall j, 0 <= j < blocks_in_slab cfg is_short sc ->
    In (block_at cfg is_short sc j) (claimed st).

(** What the operations keep.  A full slab: [link] and [head] are 1 and the
    claimed blocks are all the blocks.  A slab with space: the free list
    from [head] ends at the bump pointer at some block [k]; the link block,
    the claimed blocks and the blocks of the free list are different blocks
    and are all the blocks below [k]; and the link block is the first block
    as long as bump headroom remains. *)
Inductive slab_inv (cfg : Config) (is_short : bool) (slab sc : Z)
    : slab_state -> Prop :=
| inv_full (st : slab_state) :
    sizeclass (meta st) = sc ->
    Mod_get cfg (link (meta st)) = 1 ->
    Mod_get cfg (head (meta st)) = 1 ->
    NoDup (claimed st) ->
    (forall x, In x (claimed st) ->
       block_below cfg is_short sc (blocks_in_slab cfg is_short sc) x) ->
    Z.of_nat (List.length (claimed st)) = blocks_in_slab cfg is_short sc ->
    used (meta st) = Z.of_nat (List.length (claimed st)) ->
    slab_inv cfg is_short slab sc st
| inv_space (st : slab_state) (k : Z) (nodes : list Z) :
    sizeclass (meta st) = sc ->
    1 <= k <= blocks_in_slab cfg is_short sc ->
    segment cfg (heap st) slab (Mod_get cfg (head (meta st))) nodes
      (bump_at cfg is_short sc k) ->
    NoDup (Mod_get cfg (link (meta st)) :: claimed st ++ nodes) ->
    (forall x, In x (Mod_get cfg (link (meta st)) :: claimed st ++ nodes) ->
       block_below cfg is_short sc k x) ->
    Z.of_nat (List.length (Mod_get cfg (link (meta st)) :: claimed st ++ nodes))
    = k ->
    (k < blocks_in_slab cfg is_short sc ->
     Mod_get cfg (link (meta st)) = get_initial_link cfg sc is_short) ->
    used (meta st) = Z.of_nat (List.length (claimed st)) ->
    slab_inv cfg is_short slab sc st.

(** ** Auxiliary notions used to state the properties of the encoding *)

(** The word at [p] with its bit [i] inverted. *)
Definition flip_bit (cfg : Config) (mem : memory) (p i : Z) : memory :=
  store mem p (Z.lxor (load cfg mem p) (2 ^ i)).

(** The words [store_next] writes for the 16-bit offsets, one per offset. *)
Definition encoded_words (cfg : Config) : list Z :=
  map (encode_next cfg) (map Z.of_nat (seq 0 (Z.to_nat (2 ^ 16)))).

(** ** Auxiliary notions used to reason on the walks over the free list *)

(** The offset [follow_next] returns for the block at offset [x] when it
    returns. *)
Definition link_of (cfg : Config) (mem : memory) (slab x : Z) : Z :=
  u16 (load cfg mem (pointer_offset slab x)).

(** The word of the block at offset [x] passes the check of [follow_next]. *)
Definition readable (cfg : Config) (mem : memory) (slab x : Z) : bool :=
  negb (CHECK_CLIENT cfg &&
        (recovered cfg (load cfg mem (pointer_offset slab x)) >? 0xFFFF)).

(** [x] is a block of the free list whose link can be followed. *)
Definition inner (cfg : Config) (mem : memory) (slab x : Z) : bool :=
  negb (bump_tagged x) && readable cfg mem slab x.

(** The offset reached from [x] after [k] links. *)
Definition trail (cfg : Config) (mem : memory) (slab x : Z) (k : nat) : Z :=
  Nat.iter k (link_of cfg mem slab) x.

(** The walk from [x] stops at its [n]-th offset: a bump pointer or a block
    whose word fails the check. *)
Definition stops_at (cfg : Config) (mem : memory) (slab x : Z) (n : nat)
    : Prop :=
  (forall j, (j < n)%nat -> inner cfg mem slab (trail cfg mem slab x j) = true) /\
  inner cfg mem slab (trail cfg mem slab x n) = false.

(** ** A concrete slab

    A hardened 64-bit debug build with slabs of 2^16 bytes, a size class of
    48-byte blocks whose first block is at offset 16 (65536 = 16 + 1365 * 48)
    and no cache-friendly offset. *)
Definition ex_cfg : Config :=
  {| is64 := true; CHECK_CLIENT := true; NDEBUG := false;
     SNMALLOC_CHEAP_CHECKS := false; SLAB_SIZE := 65536;
     sizeclass_to_size := fun _ => 48;
     get_initial_link := fun _ _ => 16;
     remove_cache_friendly_offset := fun relative _ => relative |}.

(** The same build without the hardening. *)
Definition ex_cfg_plain : Config :=
  {| is64 := true; CHECK_CLIENT := false; NDEBUG := false;
     SNMALLOC_CHEAP_CHECKS := false; SLAB_SIZE := 65536;
     sizeclass_to_size := fun _ => 48;
     get_initial_link := fun _ _ => 16;
     remove_cache_friendly_offset := fun relative _ => relative |}.

Definition ex_slab : Z := 0x10000.

(** The block at offset 64 is free and links to the bump pointer 161: the
    blocks from offset 160 on were never handed out. *)
Definition ex_mem : memory :=
  store_next ex_cfg (fun _ => 0) (pointer_offset ex_slab 64) 161.

(** One block in use (the one at offset 112), the block at 64 on the free
    list, the link block at offset 16. *)
Definition ex_meta : Metaslab :=
  {| used := 1; head := 64; link := 16; sizeclass := 2; next := 0 |}.

(** All the 1365 blocks in use, just before and after [set_full]. *)
Definition ex_last : Metaslab :=
  {| used := 1365; head := 1; link := 16; sizeclass := 2; next := 0 |}.

Definition ex_full : Metaslab :=
  {| used := 1365; head := 1; link := 1; sizeclass := 2; next := 0 |}.

(** A block that links to itself, as after it was released twice. *)
Definition ex_mem_cycle : memory :=
  store_next ex_cfg (fun _ => 0) (pointer_offset ex_slab 64) 64.

(** ** The rest of the header *)

(** Modelled from the spec: [SLAB_MASK] (mem/allocconfig.h is not among the
    sources), the constant of type [size_t] that clears the low bits of an
    address according to the alignment of a slab, SLAB_SIZE. *)
Definition SLAB_MASK (cfg : Config) : Z := wrap cfg (Z.lnot (SLAB_SIZE cfg - 1)).

(** [SlabLink::get_slab], for the link node at address [this]. *)
Definition get_slab (cfg : Config) (this : Z) : Z :=
  Z.land (wrap cfg this) (SLAB_MASK cfg).

Definition valid_head (cfg : Config) (m : Metaslab) (is_short : bool) : bool :=
  let size := wrap cfg (sizeclass_to_size cfg (sizeclass m)) in
  let slab_start := wrap cfg (get_initial_link cfg (sizeclass m) is_short) in
  let all_high_bits := wrap cfg (Z.lnot 1) in
  let head_start :=
    wrap cfg (remove_cache_friendly_offset cfg
                (Z.land (Mod_get cfg (head m)) all_high_bits) (sizeclass m)) in
  wrap cfg (head_start - slab_start) mod size =? 0.

(** The test [(start - offset) % size == 0] that [debug_slab_invariant]
    asserts of the block at offset [x]. *)
Definition block_aligned (cfg : Config) (is_short : bool) (m : Metaslab)
    (x : Z) : Prop :=
  wrap cfg (u16 (remove_cache_friendly_offset cfg x (sizeclass m))
            - wrap cfg (get_initial_link cfg (sizeclass m) is_short))
  mod wrap cfg (sizeclass_to_size cfg (sizeclass m)) = 0.

(** The same build for 32-bit words. *)
Definition ex_cfg32 : Config :=
  {| is64 := false; CHECK_CLIENT := true; NDEBUG := false;
     SNMALLOC_CHEAP_CHECKS := false; SLAB_SIZE := 65536;
     sizeclass_to_size := fun _ => 48;
     get_initial_link := fun _ _ => 16;
     remove_cache_friendly_offset := fun relative _ => relative |}.

(** The release build. *)
Definition ex_cfg_release : Config :=
  {| is64 := true; CHECK_CLIENT := false; NDEBUG := true;
     SNMALLOC_CHEAP_CHECKS := false; SLAB_SIZE := 65536;
     sizeclass_to_size := fun _ => 48;
     get_initial_link := fun _ _ => 16;
     remove_cache_friendly_offset := fun relative _ => relative |}.

(** The concrete slab after it was carved, the blocks at offsets 64 and 112
    were claimed and the block at 64 was released. *)
Definition ex_state : slab_state :=
  {| meta := ex_meta; heap := ex_mem; claimed := [112] |}.

(** A hardened 64-bit debug build with slabs of 256 bytes that hold three
    blocks of 64 bytes behind an initial offset of 64. *)
Definition ex_cfg_small : Config :=
  {| is64 := true; CHECK_CLIENT := true; NDEBUG := false;
     SNMALLOC_CHEAP_CHECKS := false; SLAB_SIZE := 256;
     sizeclass_to_size := fun _ => 64;
     get_initial_link := fun _ _ => 64;
     remove_cache_friendly_offset := fun relative _ => relative |}.

(** The small slab with its three blocks claimed. *)
Definition ex_state_full : slab_state :=
  {| meta := {| used := 3; head := 1; link := 1; sizeclass := 2; next := 0 |};
     heap := fun _ => 0;
     claimed := [64; 192; 128] |}.


(** * Properties *)

(** ** Machine words and their bits *)

Lemma BITS_cases (cfg : Config) : BITS cfg = 32 \/ BITS cfg = 64.
Proof. unfold BITS; destruct (is64 cfg); auto. Qed.

Lemma wrap_range (cfg : Config) (x : Z) : 0 <= wrap cfg x < 2 ^ BITS cfg.
Proof.
  unfold wrap; apply Z.mod_pos_bound.
  destruct (BITS_cases cfg) as [-> | ->]; reflexivity.
Qed.

Lemma wrap_small (cfg : Config) (x : Z) :
  0 <= x < 2 ^ 32 -> wrap cfg x = x.
Proof.
  intros H; unfold wrap; apply Z.mod_small.
  destruct (BITS_cases cfg) as [-> | ->]; lia.
Qed.

Lemma u16_range (x : Z) : 0 <= u16 x < 2 ^ 16.
Proof. unfold u16; apply Z.mod_pos_bound; reflexivity. Qed.

Lemma u16_small (x : Z) : 0 <= x < 2 ^ 16 -> u16 x = x.
Proof. intros H; unfold u16; apply Z.mod_small; exact H. Qed.

Lemma testbit_wrap (cfg : Config) (x n : Z) :
  Z.testbit (wrap cfg x) n = (n <? BITS cfg) && Z.testbit x n.
Proof.
  unfold wrap; apply Z.testbit_mod_pow2.
  destruct (BITS_cases cfg); lia.
Qed.

Lemma testbit_high (x k n : Z) :
  0 <= x < 2 ^ k -> 0 <= k <= n -> Z.testbit x n = false.
Proof.
  intros Hx Hk.
  rewrite <- (Z.mod_small x (2 ^ k)) by exact Hx.
  apply Z.mod_pow2_bits_high; exact Hk.
Qed.

(** A number below 2^16 is one whose bits from 16 on are all clear. *)
Lemma small_of_bits (x : Z) :
  0 <= x -> (forall n, 16 <= n -> Z.testbit x n = false) -> x < 2 ^ 16.
Proof.
  intros Hx Hb.
  assert (E : x mod 2 ^ 16 = x).
  { apply Z.bits_inj'; intros n Hn.
    rewrite Z.testbit_mod_pow2 by lia.
    destruct (Z.ltb_spec n 16) as [Hlt | Hge]; simpl; [reflexivity|].
    symmetry; apply Hb; exact Hge. }
  rewrite <- E; apply Z.mod_pos_bound; reflexivity.
Qed.

Lemma large_of_bit (x n : Z) :
  0 <= x -> 16 <= n -> Z.testbit x n = true -> (x >? 0xFFFF) = true.
Proof.
  intros Hx Hn Hb.
  destruct (Z.gtb_spec x 0xFFFF) as [Hgt | Hle]; [reflexivity|].
  rewrite (testbit_high x 16 n) in Hb by lia; discriminate.
Qed.

Lemma POISON_range (cfg : Config) : 0 <= POISON cfg < 2 ^ BITS cfg.
Proof. unfold POISON, BITS; destruct (is64 cfg); lia. Qed.

Lemma POISON_low (cfg : Config) (n : Z) :
  n < 16 -> Z.testbit (POISON cfg) n = false.
Proof.
  intros Hn; unfold POISON; destruct (is64 cfg).
  - change 0xDEADBEEFDEAD0000 with (0xDEADBEEFDEAD * 2 ^ 16).
    apply Z.mul_pow2_bits_low; exact Hn.
  - change 0xDEAD0000 with (0xDEAD * 2 ^ 16).
    apply Z.mul_pow2_bits_low; exact Hn.
Qed.

Lemma POISON_high (cfg : Config) (n : Z) :
  BITS cfg <= n -> Z.testbit (POISON cfg) n = false.
Proof.
  intros Hn; apply (testbit_high _ (BITS cfg)).
  - apply POISON_range.
  - destruct (BITS_cases cfg); lia.
Qed.

(** The bits of the value the hardened [follow_next] checks. *)
Lemma testbit_recovered (cfg : Config) (w n : Z) :
  Z.testbit (recovered cfg w) n =
  xorb (xorb (Z.testbit w n) (Z.testbit (POISON cfg) n))
       ((n <? BITS cfg) && Z.testbit w (n - (BITS cfg - 16))).
Proof.
  pose proof (BITS_cases cfg) as HB.
  destruct (Z.lt_ge_cases n 0) as [Hneg | Hn].
  - rewrite !Z.testbit_neg_r by lia.
    rewrite andb_false_r; reflexivity.
  - unfold recovered.
    rewrite !Z.lxor_spec, testbit_wrap, Z.shiftl_spec by exact Hn.
    reflexivity.
Qed.

Lemma recovered_nonneg (cfg : Config) (w : Z) : 0 <= w -> 0 <= recovered cfg w.
Proof.
  intros Hw; unfold recovered.
  pose proof (POISON_range cfg); pose proof (wrap_range cfg (Z.shiftl w (BITS cfg - 16))).
  rewrite !Z.lxor_nonneg; lia.
Qed.

(** The transform of the hardened build undoes itself on machine words. *)
Lemma recovered_involutive (cfg : Config) (w : Z) :
  0 <= w < 2 ^ BITS cfg -> recovered cfg (recovered cfg w) = w.
Proof.
  intros Hw; apply Z.bits_inj'; intros n Hn.
  pose proof (BITS_cases cfg) as HB.
  rewrite !testbit_recovered.
  destruct (Z.ltb_spec n (BITS cfg)) as [Hlt | Hge]; simpl.
  - rewrite (POISON_low cfg (n - (BITS cfg - 16))) by lia.
    rewrite (Z.testbit_neg_r w (n - (BITS cfg - 16) - (BITS cfg - 16))) by lia.
    rewrite andb_false_r.
    destruct (Z.testbit w n), (Z.testbit (POISON cfg) n),
      (Z.testbit w (n - (BITS cfg - 16))); reflexivity.
  - rewrite (testbit_high w (BITS cfg) n) by lia.
    rewrite (POISON_high cfg n) by lia.
    reflexivity.
Qed.

(** The transform leaves the low 16 bits as they are. *)
Lemma recovered_low (cfg : Config) (w : Z) : u16 (recovered cfg w) = u16 w.
Proof.
  pose proof (BITS_cases cfg) as HB.
  unfold u16; apply Z.bits_inj'; intros n Hn.
  rewrite !Z.testbit_mod_pow2 by lia.
  destruct (Z.ltb_spec n 16) as [Hlt | Hge]; simpl; [|reflexivity].
  rewrite testbit_recovered.
  rewrite (POISON_low cfg n) by exact Hlt.
  rewrite (Z.testbit_neg_r w (n - (BITS cfg - 16))) by lia.
  rewrite andb_false_r, !xorb_false_r; reflexivity.
Qed.

Lemma encode_next_hardened (cfg : Config) (h : Z) :
  CHECK_CLIENT cfg = true -> encode_next cfg h = recovered cfg h.
Proof. intros H; unfold encode_next, recovered; rewrite H; reflexivity. Qed.

Lemma recovered_range (cfg : Config) (w : Z) :
  0 <= w < 2 ^ BITS cfg -> 0 <= recovered cfg w < 2 ^ BITS cfg.
Proof.
  intros Hw; pose proof (BITS_cases cfg) as HB.
  pose proof (recovered_nonneg cfg w ltac:(lia)) as H0.
  split; [exact H0|].
  assert (E : recovered cfg w mod 2 ^ BITS cfg = recovered cfg w).
  { apply Z.bits_inj'; intros n Hn.
    rewrite Z.testbit_mod_pow2 by lia.
    destruct (Z.ltb_spec n (BITS cfg)) as [Hlt | Hge]; simpl; [reflexivity|].
    rewrite testbit_recovered.
    rewrite (testbit_high w (BITS cfg) n) by lia.
    rewrite (POISON_high cfg n) by lia.
    destruct (Z.ltb_spec n (BITS cfg)); [lia | reflexivity]. }
  rewrite <- E; apply Z.mod_pos_bound.
  destruct HB as [-> | ->]; reflexivity.
Qed.

Lemma encode_next_range (cfg : Config) (h : Z) :
  0 <= h < 2 ^ 16 -> 0 <= encode_next cfg h < 2 ^ BITS cfg.
Proof.
  intros Hh; pose proof (BITS_cases cfg) as HB.
  assert (Hw : 0 <= h < 2 ^ BITS cfg) by (destruct HB as [-> | ->]; lia).
  unfold encode_next; destruct (CHECK_CLIENT cfg).
  - apply (recovered_range cfg h Hw).
  - exact Hw.
Qed.

Lemma load_store_same (cfg : Config) (mem : memory) (p v : Z) :
  load cfg (store mem p v) p = wrap cfg v.
Proof. unfold load, store; rewrite Z.eqb_refl; reflexivity. Qed.

Lemma decode_encode (cfg : Config) (o : Z) :
  0 <= o < 2 ^ 16 -> decode_next cfg (encode_next cfg o) = Ok o.
Proof.
  intros Ho; pose proof (BITS_cases cfg) as HB.
  assert (Hw : 0 <= o < 2 ^ BITS cfg) by (destruct HB as [-> | ->]; lia).
  unfold decode_next.
  destruct (CHECK_CLIENT cfg) eqn:Hc; simpl.
  - rewrite (encode_next_hardened cfg o Hc).
    rewrite (recovered_involutive cfg o Hw).
    destruct (Z.gtb_spec o 0xFFFF) as [Hgt | Hle]; [lia|].
    rewrite recovered_low, u16_small by exact Ho; reflexivity.
  - unfold encode_next; rewrite Hc, u16_small by exact Ho; reflexivity.
Qed.

(** ** The link stored in a free block *)

(** C1: for every 16-bit offset [o], in the plain and in the hardened build
    and for both word sizes, [follow_next] on a block just written by
    [store_next p o] returns [o]: it does not end in the fatal error. *)
Theorem follow_next_store_next (cfg : Config) (mem : memory) (p o : Z) :
  0 <= o < 2 ^ 16 ->
  follow_next cfg (store_next cfg mem p o) p = Ok o.
Proof.
  intros Ho; unfold follow_next, store_next.
  rewrite load_store_same.
  unfold wrap; rewrite Z.mod_small by (apply encode_next_range; exact Ho).
  apply decode_encode; exact Ho.
Qed.

Lemma decode_next_Ok_inv (cfg : Config) (w r : Z) :
  CHECK_CLIENT cfg = true -> 0 <= w < 2 ^ BITS cfg ->
  decode_next cfg w = Ok r ->
  0 <= r < 2 ^ 16 /\ r = recovered cfg w /\ w = encode_next cfg r.
Proof.
  intros Hc Hw; unfold decode_next; rewrite Hc; simpl.
  destruct (Z.gtb_spec (recovered cfg w) 0xFFFF) as [Hgt | Hle];
    [discriminate|].
  intros H; injection H as <-.
  pose proof (recovered_nonneg cfg w ltac:(lia)) as H0.
  assert (E : u16 w = recovered cfg w).
  { rewrite <- (recovered_low cfg); apply u16_small; lia. }
  split; [apply u16_range|].
  split; [exact E|].
  rewrite E, (encode_next_hardened cfg _ Hc).
  symmetry; apply recovered_involutive; exact Hw.
Qed.

(** C7: in the hardened build [follow_next] undoes the transform of
    [store_next]; it ends in the use-after-free fatal error exactly when the
    bits above the low 16 of the recovered value are not all zero, and when
    they are all zero it returns the recovered value, a 16-bit offset. *)
Theorem follow_next_hardened (cfg : Config) (mem : memory) (node : Z) :
  CHECK_CLIENT cfg = true ->
  (forall o, 0 <= o < 2 ^ 16 -> recovered cfg (encode_next cfg o) = o) /\
  (follow_next cfg mem node = Fatal use_after_free <->
   Z.shiftr (recovered cfg (load cfg mem node)) 16 <> 0) /\
  (Z.shiftr (recovered cfg (load cfg mem node)) 16 = 0 ->
   follow_next cfg mem node = Ok (recovered cfg (load cfg mem node)) /\
   0 <= recovered cfg (load cfg mem node) < 2 ^ 16).
Proof.
  intros Hc.
  pose proof (BITS_cases cfg) as HB.
  pose proof (wrap_range cfg (mem node)) as Hw; fold (load cfg mem node) in Hw.
  pose proof (recovered_nonneg cfg _ (proj1 Hw)) as H0.
  assert (Hsh : Z.shiftr (recovered cfg (load cfg mem node)) 16 = 0 <->
                recovered cfg (load cfg mem node) < 2 ^ 16).
  { rewrite Z.shiftr_div_pow2 by lia.
    rewrite Z.div_small_iff by lia. lia. }
  split; [|split].
  - intros o Ho.
    rewrite (encode_next_hardened cfg o Hc).
    apply recovered_involutive; destruct HB as [-> | ->]; lia.
  - unfold follow_next, decode_next; rewrite Hc; simpl.
    destruct (Z.gtb_spec (recovered cfg (load cfg mem node)) 0xFFFF)
      as [Hgt | Hle].
    + split; [intros _; rewrite Hsh; lia | reflexivity].
    + split; [discriminate | intros Hn; exfalso; apply Hn, Hsh; lia].
  - intros Hz; apply Hsh in Hz.
    split; [|lia].
    unfold follow_next, decode_next; rewrite Hc; simpl.
    destruct (Z.gtb_spec (recovered cfg (load cfg mem node)) 0xFFFF)
      as [Hgt | Hle]; [lia|].
    rewrite <- (recovered_low cfg), u16_small by lia; reflexivity.
Qed.

(** C2: in the hardened build, for every 16-bit offset [o] and every bit
    position [i] of the machine word, inverting bit [i] of the word written
    by [store_next p o] makes [follow_next] end in the fatal error: no
    single-bit change decodes. *)
Theorem single_bit_flip_detected (cfg : Config) (mem : memory) (p o i : Z) :
  CHECK_CLIENT cfg = true ->
  0 <= o < 2 ^ 16 ->
  0 <= i < BITS cfg ->
  follow_next cfg (flip_bit cfg (store_next cfg mem p o) p i) p
  = Fatal use_after_free.
Proof.
  intros Hc Ho Hi.
  pose proof (BITS_cases cfg) as HB.
  assert (Hw : 0 <= o < 2 ^ BITS cfg) by (destruct HB as [-> | ->]; lia).
  unfold follow_next, flip_bit, store_next.
  rewrite !load_store_same.
  unfold decode_next; rewrite Hc; simpl.
  rewrite (encode_next_hardened cfg o Hc).
  set (w := wrap cfg (Z.lxor (wrap cfg (recovered cfg o)) (2 ^ i))).
  assert (Hbit : forall n,
            Z.testbit w n =
            (n <? BITS cfg) && xorb (Z.testbit (recovered cfg o) n) (i =? n)).
  { intros n; unfold w.
    rewrite testbit_wrap, Z.lxor_spec, testbit_wrap, Z.pow2_bits_eqb by lia.
    destruct (n <? BITS cfg); reflexivity. }
  assert (H0 : 0 <= recovered cfg w).
  { apply recovered_nonneg; unfold w; apply wrap_range. }
  (* the bit of the recovered value that gives the change away *)
  set (n := if i <? 16 then i + (BITS cfg - 16) else i).
  assert (Hn : 16 <= n < BITS cfg).
  { unfold n; destruct (Z.ltb_spec i 16); lia. }
  rewrite (large_of_bit _ n H0); [reflexivity | lia |].
  pose proof (recovered_involutive cfg o Hw) as E.
  apply (f_equal (fun x => Z.testbit x n)) in E.
  rewrite (testbit_high o 16 n) in E by lia.
  rewrite testbit_recovered in E.
  rewrite testbit_recovered, !Hbit.
  replace (n <? BITS cfg) with true in * by (symmetry; apply Z.ltb_lt; lia).
  replace (n - (BITS cfg - 16) <? BITS cfg) with true
    by (symmetry; apply Z.ltb_lt; lia).
  simpl in *.
  assert (Hx : xorb (i =? n) (i =? n - (BITS cfg - 16)) = true).
  { unfold n; destruct (Z.ltb_spec i 16).
    - replace (i + (BITS cfg - 16) - (BITS cfg - 16)) with i by lia.
      rewrite Z.eqb_refl.
      replace (i =? i + (BITS cfg - 16)) with false
        by (symmetry; apply Z.eqb_neq; lia).
      reflexivity.
    - rewrite Z.eqb_refl.
      replace (i =? i - (BITS cfg - 16)) with false
        by (symmetry; apply Z.eqb_neq; lia).
      reflexivity. }
  destruct (Z.testbit (recovered cfg o) n), (Z.testbit (POISON cfg) n),
    (Z.testbit (recovered cfg o) (n - (BITS cfg - 16))),
    (i =? n), (i =? n - (BITS cfg - 16)); simpl in *; congruence.
Qed.

Lemma In_encoded_words (cfg : Config) (w : Z) :
  In w (encoded_words cfg) <-> exists o, 0 <= o < 2 ^ 16 /\ w = encode_next cfg o.
Proof.
  unfold encoded_words; rewrite in_map_iff; split.
  - intros (o & <- & Ho); apply in_map_iff in Ho as (k & <- & Hk).
    apply in_seq in Hk.
    exists (Z.of_nat k); split; [|reflexivity].
    assert (Z.of_nat (Z.to_nat (2 ^ 16)) = 2 ^ 16) by (apply Z2Nat.id; lia).
    lia.
  - intros (o & Ho & ->).
    exists o; split; [reflexivity|].
    apply in_map_iff; exists (Z.to_nat o); split; [apply Z2Nat.id; lia|].
    apply in_seq.
    assert (Z.of_nat (Z.to_nat (2 ^ 16)) = 2 ^ 16) by (apply Z2Nat.id; lia).
    lia.
Qed.

Lemma decode_next_cases (cfg : Config) (w : Z) :
  decode_next cfg w = Fatal use_after_free \/ exists r, decode_next cfg w = Ok r.
Proof.
  unfold decode_next.
  destruct (CHECK_CLIENT cfg && (recovered cfg w >? 0xFFFF)); eauto.
Qed.

(** C9: in the hardened build the check of [follow_next] is exact.  The word
    read passes it if and only if it is the word [store_next] writes for some
    16-bit offset; there are exactly 2^16 such words, one per offset; any
    other word ends in the fatal error; and the offset returned is the one
    that was encoded. *)
Theorem hardened_check_exact (cfg : Config) :
  CHECK_CLIENT cfg = true ->
  (forall mem node,
     (exists r, follow_next cfg mem node = Ok r) <->
     In (load cfg mem node) (encoded_words cfg)) /\
  (forall mem node,
     ~ In (load cfg mem node) (encoded_words cfg) ->
     follow_next cfg mem node = Fatal use_after_free) /\
  (forall mem node o,
     0 <= o < 2 ^ 16 -> load cfg mem node = encode_next cfg o ->
     follow_next cfg mem node = Ok o) /\
  NoDup (encoded_words cfg) /\
  Z.of_nat (List.length (encoded_words cfg)) = 2 ^ 16.
Proof.
  intros Hc.
  assert (Hpass : forall mem node,
            (exists r, follow_next cfg mem node = Ok r) <->
            In (load cfg mem node) (encoded_words cfg)).
  { intros mem node; rewrite In_encoded_words; unfold follow_next; split.
    - intros (r & Hr).
      apply decode_next_Ok_inv in Hr as (Hr & _ & E);
        [| exact Hc | apply wrap_range].
      exists r; split; assumption.
    - intros (o & Ho & ->); exists o; apply decode_encode; exact Ho. }
  split; [exact Hpass|].
  split; [|split; [|split]].
  - intros mem node Hnot.
    destruct (decode_next_cases cfg (load cfg mem node)) as [H | H];
      [exact H|].
    exfalso; apply Hnot, Hpass; exact H.
  - intros mem node o Ho E; unfold follow_next; rewrite E.
    apply decode_encode; exact Ho.
  - unfold encoded_words.
    apply NoDup_map_NoDup_ForallPairs.
    + intros a b Ha Hb E.
      assert (Hr : forall x, In x (map Z.of_nat (seq 0 (Z.to_nat (2 ^ 16)))) ->
                   0 <= x < 2 ^ 16).
      { intros x Hx; apply in_map_iff in Hx as (k & <- & Hk).
        apply in_seq in Hk.
        assert (Z.of_nat (Z.to_nat (2 ^ 16)) = 2 ^ 16) by (apply Z2Nat.id; lia).
        lia. }
      pose proof (decode_encode cfg a (Hr a Ha)) as Da.
      pose proof (decode_encode cfg b (Hr b Hb)) as Db.
      rewrite E in Da; congruence.
    + apply NoDup_map_NoDup_ForallPairs; [|apply seq_NoDup].
      intros a b _ _; apply Nat2Z.inj.
  - unfold encoded_words; rewrite !length_map, length_seq.
    apply Z2Nat.id; lia.
Qed.

(** ** Occupancy and fullness *)

(** C10: the counter [used] is 16-bit modular.  From every 16-bit value
    [add_use] then [sub_use] leaves the Metaslab as it was; and [sub_use] at
    0 wraps to 65535, after which [is_unused] is false and [add_use] brings
    the counter back to 0. *)
Theorem used_wraps_around (m : Metaslab) :
  0 <= used m < 2 ^ 16 ->
  sub_use (add_use m) = m /\
  (used m = 0 ->
   used (sub_use m) = 65535 /\
   is_unused (sub_use m) = false /\
   used (add_use (sub_use m)) = 0).
Proof.
  intros Hr; split.
  - destruct m as [u h l sc nx]; simpl in Hr.
    unfold add_use, sub_use, with_used; simpl; f_equal.
    unfold u16.
    destruct (Z.eq_dec u 65535) as [-> | Hne]; [reflexivity|].
    rewrite (Z.mod_small (u + 1)) by lia.
    replace (u + 1 - 1) with u by lia.
    apply Z.mod_small; exact Hr.
  - intros H0; unfold add_use, sub_use, is_unused; simpl.
    rewrite H0; repeat split; reflexivity.
Qed.

Lemma Mod_get_one (cfg : Config) :
  2 <= SLAB_SIZE cfg -> Mod_get cfg (Mod_set cfg 1) = 1.
Proof.
  intros H; unfold Mod_get, Mod_set.
  rewrite Z.mod_mod by lia.
  rewrite Z.mod_small by lia.
  reflexivity.
Qed.

(** C8: when [head == 1] and [link != 1], [set_full] passes both of its
    assertions and leaves [link == 1], so that [is_full] is true, with
    [used], [head], [sizeclass] and [next] as they were; in a debug build,
    [set_full] with [head != 1] or with [link == 1] fails an assertion. *)
Theorem set_full_spec (cfg : Config) (m : Metaslab) :
  2 <= SLAB_SIZE cfg ->
  (Mod_get cfg (head m) = 1 -> Mod_get cfg (link m) <> 1 ->
   exists m',
     set_full cfg m = Ok m' /\
     Mod_get cfg (link m') = 1 /\ is_full cfg m' = true /\
     used m' = used m /\ head m' = head m /\
     sizeclass m' = sizeclass m /\ next m' = next m) /\
  (NDEBUG cfg = false ->
   Mod_get cfg (head m) <> 1 \/ Mod_get cfg (link m) = 1 ->
   exists c, set_full cfg m = AssertFail c).
Proof.
  intros HS; split.
  - intros Hh Hl.
    exists (with_link m (Mod_set cfg 1)).
    unfold set_full, assert, is_full.
    apply Z.eqb_eq in Hh; apply Z.eqb_neq in Hl; rewrite Hh, Hl.
    simpl link; rewrite (Mod_get_one cfg HS).
    destruct (NDEBUG cfg); simpl; repeat split; reflexivity.
  - intros Hd [Hh | Hl]; unfold set_full, assert; rewrite Hd.
    + apply Z.eqb_neq in Hh; rewrite Hh; simpl; eauto.
    + apply Z.eqb_eq in Hl; rewrite Hl.
      destruct (Mod_get cfg (head m) =? 1); simpl; eauto.
Qed.

(** ** Walks over the free list *)

Lemma half_succ_odd (k : nat) :
  Nat.odd k = true -> (S k / 2 = S (k / 2))%nat.
Proof.
  intros H; apply Nat.odd_spec in H as [m ->].
  replace (S (2 * m + 1)) with ((m + 1) * 2)%nat by lia.
  rewrite Nat.div_mul by lia.
  replace (2 * m + 1)%nat with (1 + m * 2)%nat by lia.
  rewrite Nat.div_add by lia.
  simpl; lia.
Qed.

Lemma half_succ_even (k : nat) :
  Nat.odd k = false -> (S k / 2 = k / 2)%nat.
Proof.
  intros H.
  assert (E : Nat.even k = true) by (rewrite <- Nat.negb_odd, H; reflexivity).
  apply Nat.even_spec in E as [m ->].
  replace (S (2 * m)) with (1 + m * 2)%nat by lia.
  rewrite Nat.div_add by lia.
  replace (2 * m)%nat with (m * 2)%nat by lia.
  rewrite Nat.div_mul by lia.
  reflexivity.
Qed.

Lemma half_lt (k : nat) : (S k / 2 <= k)%nat.
Proof.
  destruct k as [|k]; [reflexivity|].
  assert (S (S k) / 2 < S (S k))%nat by (apply Nat.div_lt; lia).
  lia.
Qed.

(** Among more values than a range holds, two are equal. *)
Lemma repeat_or_NoDup (f : nat -> Z) (n : nat) :
  (exists i j, (i < j < n)%nat /\ f i = f j) \/ NoDup (map f (seq 0 n)).
Proof.
  induction n as [|n IH].
  - right; constructor.
  - destruct IH as [(i & j & Hij & E) | Hnd].
    + left; exists i, j; split; [lia | exact E].
    + destruct (in_dec Z.eq_dec (f n) (map f (seq 0 n))) as [Hin | Hnin].
      * left; apply in_map_iff in Hin as (i & E & Hi).
        apply in_seq in Hi.
        exists i, n; split; [lia | exact E].
      * right; rewrite seq_S, map_app; simpl.
        apply NoDup_app; [exact Hnd | repeat constructor; intros [] | ].
        intros a Ha [<- | []]; exact (Hnin Ha).
Qed.

Lemma pigeonhole (f : nat -> Z) (M : nat) :
  (forall k, 0 <= f k < Z.of_nat M) ->
  exists i j, (i < j <= M)%nat /\ f i = f j.
Proof.
  intros Hf.
  destruct (repeat_or_NoDup f (S M)) as [(i & j & Hij & E) | Hnd].
  - exists i, j; split; [lia | exact E].
  - exfalso.
    assert (Hincl : incl (map f (seq 0 (S M))) (map Z.of_nat (seq 0 M))).
    { intros a Ha; apply in_map_iff in Ha as (k & <- & _).
      apply in_map_iff; exists (Z.to_nat (f k)).
      specialize (Hf k).
      split; [apply Z2Nat.id; lia | apply in_seq; lia]. }
    apply NoDup_incl_length in Hincl; [|exact Hnd].
    rewrite !length_map, !length_seq in Hincl; lia.
Qed.

(** The first index below [F] at which a test fails, if there is one. *)
Lemma first_failure (P : nat -> bool) (F : nat) :
  (forall j, (j < F)%nat -> P j = true) \/
  (exists n, (n < F)%nat /\ P n = false /\
             forall j, (j < n)%nat -> P j = true).
Proof.
  induction F as [|F IH].
  - left; intros j Hj; lia.
  - destruct IH as [Hall | (n & Hn & Hf & Hb)].
    + destruct (P F) eqn:HF.
      * left; intros j Hj.
        destruct (Nat.eq_dec j F) as [-> | Hne]; [exact HF | apply Hall; lia].
      * right; exists F; repeat split; [lia | exact HF | exact Hall].
    + right; exists n; repeat split; [lia | exact Hf | exact Hb].
Qed.

Section Walk.

Variables (cfg : Config) (mem : memory) (slab : Z).

Lemma follow_next_readable (x : Z) :
  follow_next cfg mem (pointer_offset slab x) =
  if readable cfg mem slab x
  then Ok (link_of cfg mem slab x)
  else Fatal use_after_free.
Proof.
  unfold follow_next, decode_next, readable, link_of.
  destruct (CHECK_CLIENT cfg &&
            (recovered cfg (load cfg mem (pointer_offset slab x)) >? 0xFFFF));
    reflexivity.
Qed.

Lemma follow_next_Ok_inv (x y : Z) :
  follow_next cfg mem (pointer_offset slab x) = Ok y ->
  readable cfg mem slab x = true /\ y = link_of cfg mem slab x.
Proof.
  rewrite follow_next_readable.
  destruct (readable cfg mem slab x); [|discriminate].
  intros [= <-]; split; reflexivity.
Qed.

Lemma inner_inv (x : Z) :
  inner cfg mem slab x = true ->
  bump_tagged x = false /\
  follow_next cfg mem (pointer_offset slab x) = Ok (link_of cfg mem slab x).
Proof.
  unfold inner; intros H; apply andb_true_iff in H as [Ht Hr].
  apply negb_true_iff in Ht.
  rewrite follow_next_readable, Hr; split; [exact Ht | reflexivity].
Qed.

Lemma inner_intro (x y : Z) :
  bump_tagged x = false ->
  follow_next cfg mem (pointer_offset slab x) = Ok y ->
  inner cfg mem slab x = true.
Proof.
  intros Ht Hf; apply follow_next_Ok_inv in Hf as [Hr _].
  unfold inner; rewrite Ht, Hr; reflexivity.
Qed.

Lemma link_of_range (x : Z) : 0 <= link_of cfg mem slab x < 2 ^ 16.
Proof. apply u16_range. Qed.

Lemma trail_S (x : Z) (k : nat) :
  trail cfg mem slab x (S k) = link_of cfg mem slab (trail cfg mem slab x k).
Proof. reflexivity. Qed.

Lemma trail_shift (x : Z) (k : nat) :
  trail cfg mem slab x (S k) = trail cfg mem slab (link_of cfg mem slab x) k.
Proof. unfold trail; apply Nat.iter_succ_r. Qed.

Lemma trail_add (x : Z) (a b : nat) :
  trail cfg mem slab x (a + b) = trail cfg mem slab (trail cfg mem slab x a) b.
Proof. unfold trail; rewrite Nat.add_comm; apply Nat.iter_add. Qed.

Lemma trail_range (x : Z) (k : nat) :
  0 <= x < 2 ^ 16 -> 0 <= trail cfg mem slab x k < 2 ^ 16.
Proof.
  intros Hx; destruct k as [|k]; [exact Hx|].
  rewrite trail_S; apply link_of_range.
Qed.

(** Once an offset comes back, the walk repeats with that period. *)
Lemma trail_period (x : Z) (i p : nat) :
  trail cfg mem slab x (i + p) = trail cfg mem slab x i ->
  forall q a, (i <= a)%nat ->
    trail cfg mem slab x (a + q * p) = trail cfg mem slab x a.
Proof.
  intros E q; induction q as [|q IH]; intros a Ha.
  - rewrite Nat.mul_0_l, Nat.add_0_r; reflexivity.
  - rewrite <- (IH a Ha).
    replace (a + S q * p)%nat with ((i + p) + (a + q * p - i))%nat by lia.
    rewrite trail_add, E, <- trail_add.
    f_equal; lia.
Qed.

(** Floyd: when an offset comes back, the walk at some index [2 * t] is
    where it was at index [t]. *)
Lemma floyd_meet (x : Z) (i j : nat) :
  (i < j)%nat ->
  trail cfg mem slab x i = trail cfg mem slab x j ->
  exists t, (1 <= t <= j)%nat /\
            trail cfg mem slab x (2 * t) = trail cfg mem slab x t.
Proof.
  intros Hij E.
  set (p := (j - i)%nat).
  assert (Hp : p <> 0%nat) by (unfold p; lia).
  pose proof (Nat.Div0.mul_div_le i p) as Hlo.
  pose proof (Nat.mul_succ_div_gt i p Hp) as Hhi.
  exists (p * S (i / p))%nat; split; [unfold p in *; lia|].
  replace (2 * (p * S (i / p)))%nat
    with (p * S (i / p) + S (i / p) * p)%nat by lia.
  apply (trail_period x i p); [|lia].
  replace (i + p)%nat with j by (unfold p; lia).
  symmetry; exact E.
Qed.

(** Before the walk stops no offset comes back. *)
Lemma no_return_before_stop (x : Z) (n : nat) :
  stops_at cfg mem slab x n ->
  forall i j, (i < j <= n)%nat ->
    trail cfg mem slab x i <> trail cfg mem slab x j.
Proof.
  intros [Hin Hstop] i j Hij E.
  set (p := (j - i)%nat).
  assert (Hp : p <> 0%nat) by (unfold p; lia).
  pose proof (Nat.div_mod_eq (n - i) p) as Hd.
  pose proof (Nat.mod_upper_bound (n - i) p Hp) as Hr.
  assert (Hn : trail cfg mem slab x n
               = trail cfg mem slab x (i + (n - i) mod p)).
  { replace n with (i + (n - i) mod p + ((n - i) / p) * p)%nat at 1 by lia.
    apply (trail_period x i p); [|lia].
    replace (i + p)%nat with j by (unfold p; lia).
    symmetry; exact E. }
  rewrite Hn, Hin in Hstop; [discriminate | unfold p in *; lia].
Qed.

Lemma stops_at_unique (x : Z) (n n' : nat) :
  stops_at cfg mem slab x n -> stops_at cfg mem slab x n' -> n = n'.
Proof.
  intros [Hin Hstop] [Hin' Hstop'].
  destruct (Nat.lt_trichotomy n n') as [Hlt | [Heq | Hgt]]; [|exact Heq|].
  - rewrite (Hin' n Hlt) in Hstop; discriminate.
  - rewrite (Hin n' Hgt) in Hstop'; discriminate.
Qed.

End Walk.

(** ** The cycle check *)

Section Acyclic.

Variables (cfg : Config) (mem : memory) (slab : Z).

Lemma acyclic_loop_S (fuel : nat) (curr curr_slow : Z) (both : bool) :
  acyclic_loop cfg (S fuel) mem slab curr curr_slow both =
  if bump_tagged curr then Some (Ok tt)
  else
    match follow_next cfg mem (pointer_offset slab curr) with
    | Ok curr' =>
        match (if both
               then follow_next cfg mem (pointer_offset slab curr_slow)
               else Ok curr_slow) with
        | Ok curr_slow' =>
            if curr' =? curr_slow'
            then Some (Fatal double_free)
            else acyclic_loop cfg fuel mem slab curr' curr_slow' (negb both)
        | Fatal msg => Some (Fatal msg)
        | AssertFail c => Some (AssertFail c)
        end
    | Fatal msg => Some (Fatal msg)
    | AssertFail c => Some (AssertFail c)
    end.
Proof. reflexivity. Qed.

Lemma acyclic_loop_tagged (fuel : nat) (curr curr_slow : Z) (both : bool) :
  bump_tagged curr = true ->
  acyclic_loop cfg fuel mem slab curr curr_slow both = Some (Ok tt).
Proof. intros H; destruct fuel; simpl; rewrite H; reflexivity. Qed.


(** One turn of the loop, [k] turns after the start at [x]: the hare is at
    index [k] of the walk and the tortoise at index [k / 2]. *)
Lemma acyclic_loop_turn (x : Z) (fuel k : nat) :
  (forall j, (j <= k)%nat -> inner cfg mem slab (trail cfg mem slab x j) = true) ->
  acyclic_loop cfg (S fuel) mem slab
    (trail cfg mem slab x k) (trail cfg mem slab x (k / 2)) (Nat.odd k) =
  if trail cfg mem slab x (S k) =? trail cfg mem slab x (S k / 2)
  then Some (Fatal double_free)
  else acyclic_loop cfg fuel mem slab
         (trail cfg mem slab x (S k)) (trail cfg mem slab x (S k / 2))
         (Nat.odd (S k)).
Proof.
  intros Hin.
  rewrite acyclic_loop_S.
  destruct (inner_inv cfg mem slab _ (Hin k (le_n k))) as [Ht Hf].
  rewrite Ht, Hf, <- trail_S.
  rewrite Nat.odd_succ, <- Nat.negb_odd.
  destruct (Nat.odd k) eqn:Hodd.
  - assert (Hh : (k / 2 <= k)%nat) by (apply Nat.Div0.div_le_upper_bound; lia).
    destruct (inner_inv cfg mem slab _ (Hin (k / 2)%nat Hh)) as [_ Hf'].
    rewrite Hf', <- trail_S, (half_succ_odd k Hodd); reflexivity.
  - rewrite (half_succ_even k Hodd); reflexivity.
Qed.

(** The walk stops [d] links ahead: the check ends there, normally at a
    bump pointer and with the fatal error of [follow_next] otherwise. *)
Lemma acyclic_loop_stops (x : Z) (d : nat) :
  forall fuel k, (d < fuel)%nat ->
    stops_at cfg mem slab x (k + d) ->
    acyclic_loop cfg fuel mem slab
      (trail cfg mem slab x k) (trail cfg mem slab x (k / 2)) (Nat.odd k) =
    Some (if bump_tagged (trail cfg mem slab x (k + d))
          then Ok tt else Fatal use_after_free).
Proof.
  induction d as [|d IH]; intros fuel k Hfuel Hstop;
    (destruct fuel as [|fuel]; [lia|]).
  - rewrite Nat.add_0_r in *.
    destruct Hstop as [_ Hstop].
    rewrite acyclic_loop_S.
    destruct (bump_tagged (trail cfg mem slab x k)) eqn:Ht; [reflexivity|].
    unfold inner in Hstop; rewrite Ht in Hstop; simpl in Hstop.
    rewrite follow_next_readable, Hstop; reflexivity.
  - rewrite acyclic_loop_turn by (intros j Hj; apply (proj1 Hstop); lia).
    pose proof (no_return_before_stop cfg mem slab x _ Hstop
                  (S k / 2)%nat (S k)) as Hne.
    pose proof (half_lt k) as Hh.
    apply not_eq_sym, Z.eqb_neq in Hne; [|lia].
    rewrite Hne.
    replace (k + S d)%nat with (S k + d)%nat in * by lia.
    apply IH; [lia | exact Hstop].
Qed.

(** The hare meets the tortoise [d + 1] turns ahead and not before: the
    check ends there with the fatal error of the cycle. *)
Lemma acyclic_loop_detects (x : Z) (d : nat) :
  forall fuel k, (d < fuel)%nat ->
    (forall j, (j <= k + d)%nat ->
       inner cfg mem slab (trail cfg mem slab x j) = true) ->
    (forall j, (k <= j < k + d)%nat ->
       (trail cfg mem slab x (S j) =? trail cfg mem slab x (S j / 2)) = false) ->
    (trail cfg mem slab x (S (k + d))
     =? trail cfg mem slab x (S (k + d) / 2)) = true ->
    acyclic_loop cfg fuel mem slab
      (trail cfg mem slab x k) (trail cfg mem slab x (k / 2)) (Nat.odd k) =
    Some (Fatal double_free).
Proof.
  induction d as [|d IH]; intros fuel k Hfuel Hin Hne Hmeet;
    (destruct fuel as [|fuel]; [lia|]).
  - rewrite Nat.add_0_r in *.
    rewrite acyclic_loop_turn by exact Hin.
    rewrite Hmeet; reflexivity.
  - rewrite acyclic_loop_turn by (intros j Hj; apply Hin; lia).
    rewrite (Hne k) by lia.
    replace (k + S d)%nat with (S k + d)%nat in * by lia.
    apply IH; [lia | exact Hin | intros j Hj; apply Hne; lia | exact Hmeet].
Qed.

End Acyclic.

Section Classify.

Variables (cfg : Config) (mem : memory) (slab : Z).

Lemma hops_trail (n : nat) (x y : Z) :
  hops cfg mem slab n x y ->
  (forall j, (j < n)%nat -> inner cfg mem slab (trail cfg mem slab x j) = true) /\
  y = trail cfg mem slab x n.
Proof.
  induction 1 as [x | n x y z Ht Hf _ [IHin IHeq]].
  - split; [intros j Hj; lia | reflexivity].
  - pose proof (inner_intro cfg mem slab x y Ht Hf) as Hi.
    apply follow_next_Ok_inv in Hf as [_ ->].
    split.
    + intros [|j] Hj; [exact Hi|].
      rewrite trail_shift; apply IHin; lia.
    + rewrite trail_shift; exact IHeq.
Qed.

Lemma trail_hops (n : nat) :
  forall x,
    (forall j, (j < n)%nat ->
       inner cfg mem slab (trail cfg mem slab x j) = true) ->
    hops cfg mem slab n x (trail cfg mem slab x n).
Proof.
  induction n as [|n IH]; intros x Hin.
  - constructor.
  - destruct (inner_inv cfg mem slab x (Hin 0%nat ltac:(lia))) as [Ht Hf].
    rewrite trail_shift.
    apply (hops_S cfg mem slab n x _ _ Ht Hf).
    apply IH; intros j Hj.
    rewrite <- trail_shift; apply Hin; lia.
Qed.

Lemma segment_stops (x : Z) (nodes : list Z) (term : Z) :
  segment cfg mem slab x nodes term ->
  stops_at cfg mem slab x (List.length nodes) /\
  bump_tagged term = true /\
  term = trail cfg mem slab x (List.length nodes).
Proof.
  induction 1 as [x Ht | x y nodes term Ht Hf _ ((IHin & IHstop) & IHt & IHeq)].
  - repeat split; [intros j Hj; simpl in Hj; lia | | exact Ht].
    unfold inner; simpl; rewrite Ht; reflexivity.
  - pose proof (inner_intro cfg mem slab x y Ht Hf) as Hi.
    apply follow_next_Ok_inv in Hf as [_ ->].
    simpl List.length; repeat split.
    + intros [|j] Hj; [exact Hi|].
      rewrite trail_shift; apply IHin; lia.
    + rewrite trail_shift; exact IHstop.
    + exact IHt.
    + rewrite trail_shift; exact IHeq.
Qed.




Lemma returning_all_inner (x : Z) (i j : nat) :
  (i < j)%nat ->
  trail cfg mem slab x i = trail cfg mem slab x j ->
  (forall k, (k < j)%nat -> inner cfg mem slab (trail cfg mem slab x k) = true) ->
  forall k, inner cfg mem slab (trail cfg mem slab x k) = true.
Proof.
  intros Hij E Hin k.
  destruct (Nat.lt_ge_cases k j) as [Hlt | Hge]; [apply Hin; exact Hlt|].
  set (p := (j - i)%nat).
  assert (Hp : p <> 0%nat) by (unfold p; lia).
  pose proof (Nat.div_mod_eq (k - i) p) as Hd.
  pose proof (Nat.mod_upper_bound (k - i) p Hp) as Hr.
  replace k with (i + (k - i) mod p + ((k - i) / p) * p)%nat by lia.
  rewrite (trail_period cfg mem slab x i p); [apply Hin; unfold p in *; lia | | lia].
  replace (i + p)%nat with j by (unfold p; lia).
  symmetry; exact E.
Qed.

Lemma cyclic_all_inner (x : Z) :
  cyclic cfg mem slab x ->
  forall k, inner cfg mem slab (trail cfg mem slab x k) = true.
Proof.
  intros (i & n & y & Hxy & Hyy).
  apply hops_trail in Hxy as [Hin ->].
  apply hops_trail in Hyy as [Hin' E].
  apply (returning_all_inner x i (i + S n)); [lia | |].
  - rewrite trail_add; exact E.
  - intros k Hk.
    destruct (Nat.lt_ge_cases k i) as [Hlt | Hge]; [apply Hin; exact Hlt|].
    replace k with (i + (k - i))%nat by lia.
    rewrite trail_add; apply Hin'; lia.
Qed.

Lemma returning_cyclic (x : Z) (i j : nat) :
  (i < j)%nat ->
  trail cfg mem slab x i = trail cfg mem slab x j ->
  (forall k, (k < j)%nat -> inner cfg mem slab (trail cfg mem slab x k) = true) ->
  cyclic cfg mem slab x.
Proof.
  intros Hij E Hin.
  exists i, (j - i - 1)%nat, (trail cfg mem slab x i).
  split; [apply trail_hops; intros k Hk; apply Hin; lia|].
  replace (trail cfg mem slab x i) with
    (trail cfg mem slab (trail cfg mem slab x i) (S (j - i - 1))) at 2.
  - apply trail_hops; intros k Hk.
    rewrite <- trail_add; apply Hin; lia.
  - rewrite <- trail_add.
    replace (i + S (j - i - 1))%nat with j by lia.
    symmetry; exact E.
Qed.

Lemma acyclic_fuel_double : acyclic_fuel = (2 * Z.to_nat (2 ^ 16))%nat.
Proof.
  unfold acyclic_fuel.
  rewrite Z2Nat.inj_mul by lia.
  reflexivity.
Qed.

(** What the loop returns, started at a 16-bit offset with enough steps:
    either the walk stops and the loop ends there, or the walk never stops,
    runs into a cycle, and the loop ends with the fatal error of the cycle. *)
Lemma acyclic_loop_outcome (x : Z) (fuel : nat) :
  0 <= x < 2 ^ 16 ->
  (acyclic_fuel <= fuel)%nat ->
  (exists n, stops_at cfg mem slab x n /\
     acyclic_loop cfg fuel mem slab x x false =
     Some (if bump_tagged (trail cfg mem slab x n)
           then Ok tt else Fatal use_after_free)) \/
  ((forall k, inner cfg mem slab (trail cfg mem slab x k) = true) /\
   cyclic cfg mem slab x /\
   acyclic_loop cfg fuel mem slab x x false = Some (Fatal double_free)).
Proof.
  intros Hx Hfuel.
  set (M := Z.to_nat (2 ^ 16)).
  assert (HM : Z.of_nat M = 2 ^ 16) by (unfold M; apply Z2Nat.id; lia).
  assert (HF : (2 * M <= fuel)%nat).
  { rewrite acyclic_fuel_double in Hfuel; exact Hfuel. }
  change (acyclic_loop cfg fuel mem slab x x false) with
    (acyclic_loop cfg fuel mem slab (trail cfg mem slab x 0)
       (trail cfg mem slab x (0 / 2)) (Nat.odd 0)).
  destruct (first_failure
              (fun j => inner cfg mem slab (trail cfg mem slab x j)) fuel)
    as [Hall | (n & Hn & Hstop & Hin)].
  - right.
    destruct (pigeonhole (trail cfg mem slab x) M) as (i & j & Hij & E).
    { intros k; rewrite HM; apply trail_range; exact Hx. }
    assert (Hin : forall k, (k < j)%nat ->
              inner cfg mem slab (trail cfg mem slab x k) = true)
      by (intros k Hk; apply Hall; lia).
    split; [exact (returning_all_inner x i j (proj1 Hij) E Hin)|].
    split; [exact (returning_cyclic x i j (proj1 Hij) E Hin)|].
    destruct (floyd_meet cfg mem slab x i j (proj1 Hij) E) as (t & Ht & Et).
    destruct (first_failure
                (fun k => negb (trail cfg mem slab x (S k)
                                =? trail cfg mem slab x (S k / 2))) (2 * t))
      as [Hnone | (d & Hd & Hmeet & Hbefore)].
    + exfalso.
      specialize (Hnone (2 * t - 1)%nat ltac:(lia)); cbv beta in Hnone.
      assert (E1 : S (2 * t - 1) = (t * 2)%nat) by lia.
      rewrite E1, Nat.div_mul, (Nat.mul_comm t 2), Et, Z.eqb_refl in Hnone
        by lia.
      discriminate.
    + apply negb_false_iff in Hmeet.
      apply (acyclic_loop_detects cfg mem slab x d fuel 0); simpl Nat.add.
      * lia.
      * intros k Hk; apply Hall; lia.
      * intros k Hk; apply negb_true_iff, Hbefore; lia.
      * exact Hmeet.
  - left; exists n; split; [split; [exact Hin | exact Hstop]|].
    apply (acyclic_loop_stops cfg mem slab x n fuel 0 Hn).
    split; [exact Hin | exact Hstop].
Qed.

End Classify.

Lemma Mod_get_range (cfg : Config) (v : Z) : 0 <= Mod_get cfg v < 2 ^ 16.
Proof. apply u16_range. Qed.


(** ** The accounting check *)

Lemma bind_Ok_inv {A B : Type} (r : result A) (k : A -> result B) (b : B) :
  bind r k = Ok b -> exists a, r = Ok a /\ k a = Ok b.
Proof. destruct r; simpl; intros H; try discriminate; eauto. Qed.

Lemma assert_Ok_inv (cfg : Config) (c : bool) (text : string) (u : unit) :
  NDEBUG cfg = false -> assert cfg c text = Ok u -> c = true.
Proof.
  intros Hd; unfold assert; rewrite Hd.
  destruct c; [reflexivity | discriminate].
Qed.

Lemma segment_nodes (cfg : Config) (mem : memory) (slab x : Z)
    (nodes : list Z) (term : Z) :
  segment cfg mem slab x nodes term ->
  nodes = map (trail cfg mem slab x) (seq 0 (List.length nodes)).
Proof.
  induction 1 as [x Ht | x y nodes term Ht Hf _ IH]; [reflexivity|].
  apply follow_next_Ok_inv in Hf as [_ ->].
  simpl; f_equal.
  rewrite <- seq_shift, map_map.
  rewrite IH at 1.
  apply map_ext; intros k; symmetry; apply trail_shift.
Qed.

(** The blocks of a list that reaches its bump pointer are all different. *)
Lemma segment_NoDup (cfg : Config) (mem : memory) (slab x : Z)
    (nodes : list Z) (term : Z) :
  segment cfg mem slab x nodes term -> NoDup nodes.
Proof.
  intros Hseg.
  rewrite (segment_nodes cfg mem slab x nodes term Hseg).
  apply segment_stops in Hseg as (Hstop & _ & _).
  destruct (repeat_or_NoDup (trail cfg mem slab x) (List.length nodes))
    as [(i & j & Hij & E) | Hnd]; [exfalso | exact Hnd].
  apply (no_return_before_stop cfg mem slab x _ Hstop i j); [lia | exact E].
Qed.

(** The bump pointer a list reaches and its blocks are determined. *)
Lemma segment_unique (cfg : Config) (mem : memory) (slab x : Z)
    (nodes nodes' : list Z) (term term' : Z) :
  segment cfg mem slab x nodes term ->
  segment cfg mem slab x nodes' term' ->
  nodes = nodes' /\ term = term'.
Proof.
  intros H H'.
  pose proof (segment_nodes cfg mem slab x nodes term H) as E.
  pose proof (segment_nodes cfg mem slab x nodes' term' H') as E'.
  apply segment_stops in H as (Hs & _ & ->).
  apply segment_stops in H' as (Hs' & _ & ->).
  pose proof (stops_at_unique cfg mem slab x _ _ Hs Hs') as En.
  rewrite E, E', En; split; reflexivity.
Qed.

Lemma accounted_start_range (cfg : Config) (is_short : bool) (m : Metaslab) :
  in_range cfg is_short m ->
  0 <= used m * block_size cfg m + initial_offset cfg is_short m < 2 ^ 32.
Proof.
  intros (_ & Hsize & Hoff & Hused); nia.
Qed.

(** ** States of a debug build *)

Lemma set_full_Ok_inv (cfg : Config) (m m' : Metaslab) :
  NDEBUG cfg = false ->
  set_full cfg m = Ok m' ->
  Mod_get cfg (head m) = 1 /\ Mod_get cfg (link m) <> 1 /\
  m' = with_link m (Mod_set cfg 1).
Proof.
  intros Hd H; unfold set_full in H.
  apply bind_Ok_inv in H as (u1 & H1 & H).
  apply bind_Ok_inv in H as (u2 & H2 & H).
  apply (assert_Ok_inv cfg _ _ _ Hd) in H1, H2.
  apply Z.eqb_eq in H1; apply negb_true_iff, Z.eqb_neq in H2.
  injection H as <-; repeat split; assumption.
Qed.

(** ** The properties on the concrete slab *)

Lemma follow_next_store_next_witness :
  follow_next ex_cfg (store_next ex_cfg ex_mem 100 161) 100 = Ok 161 /\
  follow_next ex_cfg_plain (store_next ex_cfg_plain ex_mem 100 161) 100
  = Ok 161.
Proof.
  split.
  - apply (follow_next_store_next ex_cfg ex_mem 100 161); lia.
  - apply (follow_next_store_next ex_cfg_plain ex_mem 100 161); lia.
Defined.

Lemma single_bit_flip_detected_witness :
  follow_next ex_cfg (flip_bit ex_cfg (store_next ex_cfg ex_mem 100 161) 100 3)
    100
  = Fatal use_after_free.
Proof.
  apply (single_bit_flip_detected ex_cfg ex_mem 100 161 3).
  - reflexivity.
  - lia.
  - unfold BITS; simpl; lia.
Defined.

Lemma follow_next_hardened_witness :
  follow_next ex_cfg ex_mem (pointer_offset ex_slab 64) = Ok 161 /\
  follow_next ex_cfg ex_mem 0 = Fatal use_after_free.
Proof.
  split.
  - apply (follow_next_hardened ex_cfg ex_mem (pointer_offset ex_slab 64)
             eq_refl).
    reflexivity.
  - apply (follow_next_hardened ex_cfg ex_mem 0 eq_refl).
    vm_compute; discriminate.
Defined.

Lemma hardened_check_exact_witness :
  follow_next ex_cfg ex_mem (pointer_offset ex_slab 64) = Ok 161 /\
  Z.of_nat (List.length (encoded_words ex_cfg)) = 2 ^ 16.
Proof.
  split.
  - apply (hardened_check_exact ex_cfg eq_refl); [lia | reflexivity].
  - apply (hardened_check_exact ex_cfg eq_refl).
Defined.

Lemma used_wraps_around_witness :
  sub_use (add_use (set_unused ex_meta)) = set_unused ex_meta /\
  used (sub_use (set_unused ex_meta)) = 65535 /\
  is_unused (sub_use (set_unused ex_meta)) = false /\
  used (add_use (sub_use (set_unused ex_meta))) = 0.
Proof.
  destruct (used_wraps_around (set_unused ex_meta)) as [H1 H2].
  - simpl; lia.
  - split; [exact H1 | apply H2; reflexivity].
Defined.

Lemma set_full_spec_witness :
  (exists m',
     set_full ex_cfg ex_last = Ok m' /\
     Mod_get ex_cfg (link m') = 1 /\ is_full ex_cfg m' = true /\
     used m' = used ex_last /\ head m' = head ex_last /\
     sizeclass m' = sizeclass ex_last /\ next m' = next ex_last) /\
  (exists c, set_full ex_cfg ex_meta = AssertFail c).
Proof.
  split.
  - apply (set_full_spec ex_cfg ex_last).
    + simpl; lia.
    + reflexivity.
    + vm_compute; discriminate.
  - apply (set_full_spec ex_cfg ex_meta).
    + simpl; lia.
    + reflexivity.
    + left; vm_compute; discriminate.
Defined.


(** * Further properties of the header *)

(** ** The stored link *)

(** X1: in both builds the word [store_next] writes carries the offset
    unchanged in its low 16 bits, so the bump tag can be read off the stored
    word and different offsets are stored as different words. *)
Theorem encode_next_low_bits (cfg : Config) (o o' : Z) :
  0 <= o < 2 ^ 16 ->
  0 <= o' < 2 ^ 16 ->
  u16 (encode_next cfg o) = o /\
  bump_tagged (encode_next cfg o) = bump_tagged o /\
  (encode_next cfg o = encode_next cfg o' -> o = o').
Proof.
  intros Ho Ho'.
  assert (L : forall x, 0 <= x < 2 ^ 16 -> u16 (encode_next cfg x) = x).
  { intros x Hx; unfold encode_next; destruct (CHECK_CLIENT cfg).
    - fold (recovered cfg x); rewrite recovered_low; apply u16_small; exact Hx.
    - apply u16_small; exact Hx. }
  split; [exact (L o Ho)|]; split.
  - unfold bump_tagged.
    change 1 with (Z.ones 1); rewrite !Z.land_ones by lia.
    pose proof (L o Ho) as E; unfold u16 in E.
    f_equal.
    change (2 ^ 1) with 2; change (2 ^ 16) with 65536 in E.
    Z.div_mod_to_equations; lia.
  - intros E; rewrite <- (L o Ho), <- (L o' Ho'), E; reflexivity.
Qed.

Lemma encode_next_low_bits_witness :
  u16 (encode_next ex_cfg 161) = 161 /\
  bump_tagged (encode_next ex_cfg 161) = bump_tagged 161 /\
  (encode_next ex_cfg 161 = encode_next ex_cfg 64 -> 161 = 64).
Proof. apply (encode_next_low_bits ex_cfg 161 64); lia. Defined.

(** X2: the check of the hardened build misses some double faults: inverting
    a bit [i] of the low 16 bits of a stored word together with its copy,
    bit [i + BITS - 16], gives the word of the offset with bit [i] inverted,
    which [follow_next] returns without error. *)
Theorem paired_bit_flips_undetected (cfg : Config) (mem : memory) (p o i : Z) :
  CHECK_CLIENT cfg = true ->
  0 <= o < 2 ^ 16 ->
  0 <= i < 16 ->
  follow_next cfg
    (flip_bit cfg (flip_bit cfg (store_next cfg mem p o) p i) p
       (i + (BITS cfg - 16))) p
  = Ok (Z.lxor o (2 ^ i)).
Proof.
  intros Hc Ho Hi.
  pose proof (BITS_cases cfg) as HB.
  assert (Ho' : 0 <= Z.lxor o (2 ^ i) < 2 ^ 16).
  { assert (H0 : 0 <= Z.lxor o (2 ^ i)) by (apply Z.lxor_nonneg; lia).
    split; [exact H0|].
    apply small_of_bits; [exact H0|].
    intros n Hn; rewrite Z.lxor_spec, Z.pow2_bits_eqb by lia.
    rewrite (testbit_high o 16 n) by lia.
    replace (i =? n) with false by (symmetry; apply Z.eqb_neq; lia).
    reflexivity. }
  unfold follow_next, flip_bit, store_next.
  rewrite !(load_store_same cfg).
  replace (wrap cfg (Z.lxor (wrap cfg (Z.lxor (wrap cfg (encode_next cfg o))
                                         (2 ^ i)))
                       (2 ^ (i + (BITS cfg - 16)))))
    with (encode_next cfg (Z.lxor o (2 ^ i)));
    [apply decode_encode; exact Ho'|].
  rewrite !(encode_next_hardened cfg _ Hc).
  apply Z.bits_inj'; intros n Hn.
  rewrite testbit_wrap, Z.lxor_spec, testbit_wrap, Z.lxor_spec, testbit_wrap.
  rewrite !testbit_recovered, !Z.lxor_spec, !Z.pow2_bits_eqb by lia.
  replace (i + (BITS cfg - 16) =? n) with (i =? n - (BITS cfg - 16))
    by (destruct (Z.eqb_spec i (n - (BITS cfg - 16)));
        symmetry; [apply Z.eqb_eq | apply Z.eqb_neq]; lia).
  destruct (Z.ltb_spec n (BITS cfg)) as [Hlt | Hge]; simpl.
  - destruct (Z.testbit o n), (Z.testbit (POISON cfg) n),
      (Z.testbit o (n - (BITS cfg - 16))), (i =? n),
      (i =? n - (BITS cfg - 16)); reflexivity.
  - rewrite (testbit_high o 16 n) by lia.
    rewrite (POISON_high cfg n) by lia.
    replace (i =? n) with false by (symmetry; apply Z.eqb_neq; lia).
    reflexivity.
Qed.

Lemma paired_bit_flips_undetected_witness :
  follow_next ex_cfg
    (flip_bit ex_cfg (flip_bit ex_cfg (store_next ex_cfg ex_mem 100 161) 100 3)
       100 (3 + (BITS ex_cfg - 16))) 100
  = Ok (Z.lxor 161 (2 ^ 3)).
Proof.
  apply (paired_bit_flips_undetected ex_cfg ex_mem 100 161 3);
    [reflexivity | lia | lia].
Defined.

Lemma lxor_fixed (w t : Z) : Z.lxor w t = w -> t = 0.
Proof.
  intros E.
  assert (H : Z.lxor w (Z.lxor w t) = Z.lxor w w) by (rewrite E; reflexivity).
  rewrite <- Z.lxor_assoc, !Z.lxor_nilpotent, Z.lxor_0_l in H.
  exact H.
Qed.

(** X3: in the hardened build a word below 2^16, such as a zeroed word or a
    link written by the plain build, never passes the check of [follow_next]
    on a 64-bit machine; on a 32-bit machine the only such word that passes
    is 0xDEAD. *)
Theorem small_word_rejected (cfg : Config) (mem : memory) (node : Z) :
  CHECK_CLIENT cfg = true ->
  0 <= load cfg mem node < 2 ^ 16 ->
  ((exists r, follow_next cfg mem node = Ok r) <->
   is64 cfg = false /\ load cfg mem node = 0xDEAD).
Proof.
  intros Hc Hw; unfold follow_next.
  set (w := load cfg mem node) in *.
  pose proof (BITS_cases cfg) as HB.
  assert (Hwr : 0 <= w < 2 ^ BITS cfg) by (destruct HB as [-> | ->]; lia).
  split.
  - intros (r & Hr).
    apply (decode_next_Ok_inv cfg w r Hc Hwr) in Hr as (Hr & Er & Ew).
    assert (Erw : r = w).
    { pose proof (recovered_low cfg w) as L; rewrite <- Er in L.
      rewrite (u16_small r Hr), (u16_small w Hw) in L; exact L. }
    rewrite Erw, (encode_next_hardened cfg w Hc) in Ew.
    unfold recovered in Ew; symmetry in Ew.
    rewrite Z.lxor_assoc in Ew; apply lxor_fixed in Ew.
    apply Z.lxor_eq in Ew.
    rewrite Z.shiftl_mul_pow2 in Ew by (destruct HB; lia).
    unfold wrap, POISON, BITS in *.
    destruct (is64 cfg).
    + rewrite Z.mod_small in Ew by lia; lia.
    + rewrite Z.mod_small in Ew by lia; split; [reflexivity | lia].
  - intros [H64 ->].
    exists 0xDEAD.
    unfold decode_next, recovered, wrap, POISON, BITS; rewrite Hc, H64.
    reflexivity.
Qed.

Lemma small_word_rejected_witness :
  ((exists r, follow_next ex_cfg (fun _ => 0) 0 = Ok r) <->
   is64 ex_cfg = false /\ load ex_cfg (fun _ => 0) 0 = 0xDEAD) /\
  ((exists r, follow_next ex_cfg32 (fun _ => 0xDEAD) 0 = Ok r) <->
   is64 ex_cfg32 = false /\ load ex_cfg32 (fun _ => 0xDEAD) 0 = 0xDEAD).
Proof.
  split.
  - apply (small_word_rejected ex_cfg (fun _ => 0) 0); [reflexivity|].
    vm_compute; split; [discriminate | reflexivity].
  - apply (small_word_rejected ex_cfg32 (fun _ => 0xDEAD) 0); [reflexivity|].
    vm_compute; split; [discriminate | reflexivity].
Defined.

(** ** Occupancy, fullness and the link node *)

Lemma used_after_claims (m : Metaslab) (n : nat) :
  used (Nat.iter n add_use (set_unused m)) = Z.of_nat n mod 2 ^ 16.
Proof.
  induction n as [|n IH]; [reflexivity|].
  change (Nat.iter (S n) add_use (set_unused m))
    with (add_use (Nat.iter n add_use (set_unused m))).
  unfold add_use at 1; simpl used; rewrite IH; unfold u16.
  rewrite Zplus_mod_idemp_l; f_equal; lia.
Qed.

(** X4: the counter forgets multiples of 2^16.  After [n] calls of [add_use]
    on a slab reset by [set_unused] the counter is [n mod 2^16], and
    [is_unused] answers true again exactly when [n] is a multiple of 2^16;
    the other fields are left alone. *)
Theorem used_counts_modulo (m : Metaslab) (n : nat) :
  used (Nat.iter n add_use (set_unused m)) = Z.of_nat n mod 2 ^ 16 /\
  (is_unused (Nat.iter n add_use (set_unused m)) = true <->
   Z.of_nat n mod 2 ^ 16 = 0) /\
  head (Nat.iter n add_use (set_unused m)) = head m /\
  link (Nat.iter n add_use (set_unused m)) = link m.
Proof.
  split; [apply used_after_claims|]; split.
  - unfold is_unused; rewrite used_after_claims; apply Z.eqb_eq.
  - induction n as [|n [IHh IHl]]; [split; reflexivity|].
    change (Nat.iter (S n) add_use (set_unused m))
      with (add_use (Nat.iter n add_use (set_unused m))).
    split; [exact IHh | exact IHl].
Qed.

(** X5: [set_full] does not succeed twice in a row in a debug build: once it
    has marked a slab, a second call fails the assertion [link != 1]; in a
    release build the second call returns and changes nothing. *)
Theorem set_full_twice (cfg : Config) (m m' : Metaslab) :
  2 <= SLAB_SIZE cfg ->
  set_full cfg m = Ok m' ->
  (NDEBUG cfg = false -> set_full cfg m' = AssertFail "link != 1") /\
  (NDEBUG cfg = true -> set_full cfg m' = Ok m').
Proof.
  intros HS H.
  assert (E : m' = with_link m (Mod_set cfg 1)).
  { unfold set_full in H.
    apply bind_Ok_inv in H as (u1 & _ & H).
    apply bind_Ok_inv in H as (u2 & _ & H).
    injection H as <-; reflexivity. }
  split; intros Hd.
  - apply (set_full_Ok_inv cfg m m' Hd) in H as (Hh & _ & _).
    apply Z.eqb_eq in Hh.
    rewrite E; unfold set_full, assert, with_link; cbn [head link].
    rewrite Hd, Hh, (Mod_get_one cfg HS); reflexivity.
  - rewrite E; unfold set_full, assert; rewrite Hd; reflexivity.
Qed.

Lemma set_full_twice_witness :
  set_full ex_cfg ex_full = AssertFail "link != 1" /\
  set_full ex_cfg_release ex_full = Ok ex_full.
Proof.
  split.
  - apply (set_full_twice ex_cfg ex_last ex_full);
      [simpl; lia | reflexivity | reflexivity].
  - apply (set_full_twice ex_cfg_release ex_last ex_full);
      [simpl; lia | reflexivity | reflexivity].
Defined.

Lemma wrap_fits (cfg : Config) (x : Z) :
  0 <= x < 2 ^ BITS cfg -> wrap cfg x = x.
Proof. intros H; unfold wrap; apply Z.mod_small; exact H. Qed.

(** Clearing the low [k] bits of a machine word. *)
Lemma land_mask (cfg : Config) (k a : Z) :
  0 <= k -> 0 <= a < 2 ^ BITS cfg ->
  Z.land a (wrap cfg (Z.lnot (2 ^ k - 1))) = 2 ^ k * (a / 2 ^ k).
Proof.
  intros Hk Ha.
  pose proof (BITS_cases cfg) as HB.
  rewrite Z.mul_comm, <- Z.shiftl_mul_pow2, <- Z.shiftr_div_pow2 by lia.
  apply Z.bits_inj'; intros n Hn.
  rewrite Z.land_spec, testbit_wrap, Z.lnot_spec by lia.
  replace (2 ^ k - 1) with (Z.ones k) by (rewrite Z.ones_equiv; lia).
  rewrite Z.testbit_ones_nonneg by lia.
  rewrite Z.shiftl_spec by lia.
  destruct (Z.ltb_spec n k) as [Hlt | Hge]; simpl.
  - rewrite (Z.testbit_neg_r _ (n - k)) by lia.
    rewrite andb_false_r; apply andb_false_r.
  - rewrite Z.shiftr_spec by lia.
    replace (n - k + k) with n by lia.
    destruct (Z.ltb_spec n (BITS cfg)) as [Hlt' | Hge']; simpl.
    + apply andb_true_r.
    + rewrite (testbit_high a (BITS cfg) n) by lia; reflexivity.
Qed.

(** X6: the link node of a slab leads back to the slab.  For slabs of
    2^k bytes, k at most 16, the address [get_link] computes for a slab
    aligned on its size lies inside the slab, and [SlabLink::get_slab]
    recovers the address of the slab from it. *)
Theorem get_slab_get_link (cfg : Config) (m : Metaslab) (slab k : Z) :
  1 <= k <= 16 ->
  SLAB_SIZE cfg = 2 ^ k ->
  0 <= slab ->
  slab + SLAB_SIZE cfg <= 2 ^ BITS cfg ->
  slab mod SLAB_SIZE cfg = 0 ->
  slab <= get_link cfg m slab < slab + SLAB_SIZE cfg /\
  get_slab cfg (get_link cfg m slab) = slab.
Proof.
  intros Hk HS H0 Hfit Hal.
  assert (Hpos : 0 < 2 ^ k) by (apply Z.pow_pos_nonneg; lia).
  assert (Hle : 2 ^ k <= 2 ^ 16) by (apply Z.pow_le_mono_r; lia).
  assert (Hl : 0 <= Mod_get cfg (link m) < 2 ^ k).
  { unfold Mod_get; rewrite HS.
    pose proof (Z.mod_pos_bound (link m) (2 ^ k) Hpos).
    rewrite u16_small by lia; lia. }
  unfold get_link, pointer_offset; rewrite HS in *.
  split; [lia|].
  unfold get_slab, SLAB_MASK; rewrite HS.
  rewrite wrap_fits by lia.
  rewrite land_mask by lia.
  apply Z.mod_divide in Hal; [|lia]; destruct Hal as [q ->].
  rewrite Z.div_add_l, (Z.div_small (Mod_get cfg (link m))) by lia.
  lia.
Qed.

Lemma get_slab_get_link_witness :
  ex_slab <= get_link ex_cfg ex_meta ex_slab < ex_slab + SLAB_SIZE ex_cfg /\
  get_slab ex_cfg (get_link ex_cfg ex_meta ex_slab) = ex_slab.
Proof.
  apply (get_slab_get_link ex_cfg ex_meta ex_slab 16).
  - lia.
  - reflexivity.
  - unfold ex_slab; lia.
  - unfold ex_slab, BITS; simpl; lia.
  - reflexivity.
Defined.

(** ** [valid_head] *)

Lemma land_clear_tag (h : Z) : Z.land h (Z.lnot 1) = 2 * (h / 2).
Proof.
  rewrite <- Z.ldiff_land.
  change 1 with (Z.ones 1) at 1.
  rewrite Z.ldiff_ones_r by lia.
  rewrite Z.shiftl_mul_pow2, Z.shiftr_div_pow2 by lia.
  change (2 ^ 1) with 2; lia.
Qed.

Lemma land_clear_tag_wrap (cfg : Config) (h : Z) :
  0 <= h < 2 ^ 16 ->
  Z.land h (wrap cfg (Z.lnot 1)) = Z.land h (Z.lnot 1).
Proof.
  intros Hh; pose proof (BITS_cases cfg) as HB.
  assert (Hw : 0 <= h < 2 ^ BITS cfg) by (destruct HB as [-> | ->]; lia).
  rewrite land_clear_tag.
  change (Z.lnot 1) with (Z.lnot (2 ^ 1 - 1)).
  rewrite land_mask by (try exact Hw; lia).
  reflexivity.
Qed.

Lemma bump_tagged_parity (h : Z) : bump_tagged h = (h mod 2 =? 1).
Proof.
  unfold bump_tagged.
  change 1 with (Z.ones 1) at 1; rewrite Z.land_ones by lia.
  reflexivity.
Qed.

Lemma land_clear_tag_even (h : Z) :
  bump_tagged h = false -> Z.land h (Z.lnot 1) = h.
Proof.
  rewrite bump_tagged_parity, land_clear_tag.
  intros H; apply Z.eqb_neq in H.
  pose proof (Z.div_mod h 2 ltac:(lia)).
  pose proof (Z.mod_pos_bound h 2 ltac:(lia)).
  lia.
Qed.

(** X7: [valid_head] does not look at the bump tag: a head that is the
    offset of a block and the bump pointer at the same block are valid
    together. *)
Theorem valid_head_ignores_tag (cfg : Config) (m m' : Metaslab)
    (is_short : bool) :
  sizeclass m' = sizeclass m ->
  Mod_get cfg (head m') = Z.lxor (Mod_get cfg (head m)) 1 ->
  valid_head cfg m' is_short = valid_head cfg m is_short.
Proof.
  intros Hsc Hh; unfold valid_head; rewrite Hsc, Hh.
  pose proof (Mod_get_range cfg (head m)) as Hr.
  assert (Hx : 0 <= Z.lxor (Mod_get cfg (head m)) 1 < 2 ^ 16).
  { rewrite <- Hh; apply Mod_get_range. }
  rewrite !land_clear_tag_wrap, !land_clear_tag by assumption.
  assert (K : Z.lxor (Mod_get cfg (head m)) 1 / 2 = Mod_get cfg (head m) / 2).
  { change 2 with (2 ^ 1).
    rewrite <- !Z.shiftr_div_pow2 by lia.
    rewrite Z.shiftr_lxor; change (Z.shiftr 1 1) with 0.
    apply Z.lxor_0_r. }
  rewrite K; reflexivity.
Qed.

Lemma valid_head_ignores_tag_witness :
  valid_head ex_cfg ex_meta false
  = valid_head ex_cfg
      {| used := 1; head := 65; link := 16; sizeclass := 2; next := 0 |} false.
Proof.
  symmetry.
  apply (valid_head_ignores_tag ex_cfg ex_meta
           {| used := 1; head := 65; link := 16; sizeclass := 2; next := 0 |}
           false); reflexivity.
Defined.

(** ** What [debug_slab_invariant] checks of the blocks *)

Section Aligned.

Variables (cfg : Config) (is_short : bool) (mem : memory) (m : Metaslab).
Variable slab : Z.

Hypothesis debug_build : NDEBUG cfg = false.

Lemma invariant_step_aligned (curr acc curr' acc' : Z) :
  invariant_step cfg mem m
    (wrap cfg (sizeclass_to_size cfg (sizeclass m)))
    (wrap cfg (get_initial_link cfg (sizeclass m) is_short))
    slab curr acc = Ok (curr', acc') ->
  block_aligned cfg is_short m curr.
Proof.
  unfold invariant_step; intros H.
  apply bind_Ok_inv in H as (u1 & H1 & _).
  apply (assert_Ok_inv cfg _ _ _ debug_build), Z.eqb_eq in H1.
  exact H1.
Qed.

Lemma invariant_loop_aligned (fuel : nat) :
  forall curr acc term acc',
    invariant_loop cfg fuel mem m
      (wrap cfg (sizeclass_to_size cfg (sizeclass m)))
      (wrap cfg (get_initial_link cfg (sizeclass m) is_short))
      slab curr acc = Some (Ok (term, acc')) ->
    exists nodes,
      segment cfg mem slab curr nodes term /\
      Forall (block_aligned cfg is_short m) nodes.
Proof.
  induction fuel as [|fuel IH]; intros curr acc term acc' H;
    simpl in H; destruct (bump_tagged curr) eqn:Ht; try discriminate.
  - injection H as <- _.
    exists []; split; [apply segment_end; exact Ht | constructor].
  - injection H as <- _.
    exists []; split; [apply segment_end; exact Ht | constructor].
  - destruct (invariant_step cfg mem m _ _ slab curr acc)
      as [[curr1 acc1] | | ] eqn:Hstep; try discriminate.
    pose proof (invariant_step_aligned _ _ _ _ Hstep) as Hal.
    unfold invariant_step in Hstep.
    apply bind_Ok_inv in Hstep as (u1 & _ & Hstep).
    apply bind_Ok_inv in Hstep as (u2 & _ & Hstep).
    apply bind_Ok_inv in Hstep as (u3 & _ & Hstep).
    apply bind_Ok_inv in Hstep as (c & Hf & Hstep).
    injection Hstep as <- _.
    destruct (IH c acc1 term acc' H) as (nodes & Hseg & Hall).
    exists (curr :: nodes); split.
    + exact (segment_step cfg mem slab curr c nodes term Ht Hf Hseg).
    + constructor; assumption.
Qed.

Lemma invariant_tail_aligned (term acc : Z) :
  invariant_tail cfg is_short m
    (wrap cfg (sizeclass_to_size cfg (sizeclass m)))
    (wrap cfg (get_initial_link cfg (sizeclass m) is_short))
    term acc = Ok tt ->
  term <> 1 ->
  block_aligned cfg is_short m (Z.land term (Z.lnot 1)) /\
  Mod_get cfg (link m) = get_initial_link cfg (sizeclass m) is_short.
Proof.
  unfold invariant_tail; intros H Hne.
  apply bind_Ok_inv in H as (acc2 & H2 & _).
  apply Z.eqb_neq in Hne; rewrite Hne in H2; simpl in H2.
  apply bind_Ok_inv in H2 as (u1 & H1 & H2).
  apply bind_Ok_inv in H2 as (u2 & Hl & _).
  apply (assert_Ok_inv cfg _ _ _ debug_build), Z.eqb_eq in H1, Hl.
  split; [exact H1 | exact Hl].
Qed.

(** What a returning [debug_slab_invariant] has checked on a slab that is
    not full. *)
Lemma invariant_Ok_aligned (fuel : nat) :
  SNMALLOC_CHEAP_CHECKS cfg = false ->
  is_full cfg m = false ->
  debug_slab_invariant cfg fuel is_short mem m slab = Some (Ok tt) ->
  exists nodes term,
    segment cfg mem slab (Mod_get cfg (head m)) nodes term /\
    Forall (block_aligned cfg is_short m) nodes /\
    (term <> 1 ->
     block_aligned cfg is_short m (Z.land term (Z.lnot 1)) /\
     Mod_get cfg (link m) = get_initial_link cfg (sizeclass m) is_short).
Proof.
  intros Hc Hfull H.
  unfold debug_slab_invariant in H.
  rewrite debug_build, Hc, Hfull in H; simpl in H.
  destruct (assert cfg _ "SLAB_SIZE > accounted_for") as [u | | ];
    try discriminate.
  destruct (debug_slab_acyclic_free_list cfg fuel mem m slab)
    as [[u' | | ] | ]; try discriminate.
  destruct (invariant_loop cfg fuel mem m _ _ slab (Mod_get cfg (head m)) _)
    as [[[term acc] | | ] | ] eqn:Hloop; try discriminate.
  injection H as H.
  apply invariant_loop_aligned in Hloop as (nodes & Hseg & Hall).
  exists nodes, term; split; [exact Hseg|]; split; [exact Hall|].
  intros Hne; exact (invariant_tail_aligned term acc H Hne).
Qed.

End Aligned.

Lemma segment_inner_nodes (cfg : Config) (mem : memory) (slab x : Z)
    (nodes : list Z) (term : Z) :
  segment cfg mem slab x nodes term ->
  Forall (fun y => bump_tagged y = false) nodes /\ bump_tagged term = true.
Proof.
  induction 1 as [x Ht | x y nodes term Ht Hf _ [IHn IHt]].
  - split; [constructor | exact Ht].
  - split; [constructor; assumption | exact IHt].
Qed.

(** X8: where [debug_slab_invariant] returns on a slab that is not full, the
    free list from [head] ends at a bump pointer, its blocks are offsets of
    blocks (no bump tag) on which the alignment test holds, the test holds
    for the block at the bump pointer unless the pointer is 1, and while the
    pointer is not 1 the link node is the first block of the slab. *)
Theorem invariant_checks_blocks (cfg : Config) (fuel : nat) (is_short : bool)
    (mem : memory) (m : Metaslab) (slab : Z) :
  NDEBUG cfg = false ->
  SNMALLOC_CHEAP_CHECKS cfg = false ->
  is_full cfg m = false ->
  debug_slab_invariant cfg fuel is_short mem m slab = Some (Ok tt) ->
  exists nodes term,
    segment cfg mem slab (Mod_get cfg (head m)) nodes term /\
    bump_tagged term = true /\
    Forall (fun x => bump_tagged x = false /\ block_aligned cfg is_short m x)
      nodes /\
    (term <> 1 ->
     block_aligned cfg is_short m (Z.land term (Z.lnot 1)) /\
     Mod_get cfg (link m) = get_initial_link cfg (sizeclass m) is_short).
Proof.
  intros Hd Hc Hfull H.
  destruct (invariant_Ok_aligned cfg is_short mem m slab Hd fuel Hc Hfull H)
    as (nodes & term & Hseg & Hall & Htail).
  destruct (segment_inner_nodes cfg mem slab _ _ _ Hseg) as [Hin Ht].
  exists nodes, term; repeat split; try assumption; try (apply Htail; assumption).
  rewrite Forall_forall in *; intros x Hx; split; [apply Hin | apply Hall];
    exact Hx.
Qed.

Lemma invariant_checks_blocks_witness :
  exists nodes term,
    segment ex_cfg ex_mem ex_slab (Mod_get ex_cfg (head ex_meta)) nodes term /\
    bump_tagged term = true /\
    Forall (fun x => bump_tagged x = false /\
                     block_aligned ex_cfg false ex_meta x) nodes /\
    (term <> 1 ->
     block_aligned ex_cfg false ex_meta (Z.land term (Z.lnot 1)) /\
     Mod_get ex_cfg (link ex_meta)
     = get_initial_link ex_cfg (sizeclass ex_meta) false).
Proof.
  apply (invariant_checks_blocks ex_cfg 4 false ex_mem ex_meta ex_slab);
    reflexivity.
Defined.

(** X9: [valid_head] follows from [debug_slab_invariant].  Where the checker
    returns on a slab that is not full and whose head is not 1, and
    removing the cache-friendly offset maps 16-bit offsets to 16-bit
    offsets, [valid_head] is true. *)
Theorem invariant_implies_valid_head (cfg : Config) (fuel : nat)
    (is_short : bool) (mem : memory) (m : Metaslab) (slab : Z) :
  NDEBUG cfg = false ->
  SNMALLOC_CHEAP_CHECKS cfg = false ->
  (forall x, 0 <= x < 2 ^ 16 ->
     0 <= remove_cache_friendly_offset cfg x (sizeclass m) < 2 ^ 16) ->
  is_full cfg m = false ->
  Mod_get cfg (head m) <> 1 ->
  debug_slab_invariant cfg fuel is_short mem m slab = Some (Ok tt) ->
  valid_head cfg m is_short = true.
Proof.
  intros Hd Hc Hrange Hfull Hne H.
  destruct (invariant_Ok_aligned cfg is_short mem m slab Hd fuel Hc Hfull H)
    as (nodes & term & Hseg & Hall & Htail).
  pose proof (Mod_get_range cfg (head m)) as Hh.
  set (h := Mod_get cfg (head m)) in *.
  assert (Hal : block_aligned cfg is_short m (Z.land h (Z.lnot 1))).
  { inversion Hseg as [x Ht Ex En Et | x y nodes' term' Ht Hf Hseg' Ex En Et].
    - subst; apply Htail; exact Hne.
    - subst; rewrite (land_clear_tag_even _ Ht).
      inversion Hall; assumption. }
  assert (Hc16 : 0 <= Z.land h (Z.lnot 1) < 2 ^ 16).
  { rewrite land_clear_tag.
    pose proof (Z.div_mod h 2 ltac:(lia)).
    pose proof (Z.mod_pos_bound h 2 ltac:(lia)).
    lia. }
  pose proof (Hrange _ Hc16) as Hr.
  unfold valid_head; fold h; rewrite (land_clear_tag_wrap cfg h Hh).
  unfold block_aligned in Hal.
  rewrite (u16_small _ Hr) in Hal.
  rewrite (wrap_small cfg (remove_cache_friendly_offset cfg _ _))
    by (split; [apply Hr | apply Z.lt_trans with (1 := proj2 Hr); reflexivity]).
  apply Z.eqb_eq; exact Hal.
Qed.

Lemma invariant_implies_valid_head_witness :
  valid_head ex_cfg ex_meta false = true.
Proof.
  apply (invariant_implies_valid_head ex_cfg 4 false ex_mem ex_meta ex_slab).
  - reflexivity.
  - reflexivity.
  - intros x Hx; exact Hx.
  - reflexivity.
  - vm_compute; discriminate.
  - reflexivity.
Defined.

(** ** Termination and verdicts of the validators *)

(** A walk from a 16-bit offset that stops does so within 2^16 links. *)
Lemma stops_bound (cfg : Config) (mem : memory) (slab x : Z) (n : nat) :
  0 <= x < 2 ^ 16 ->
  stops_at cfg mem slab x n ->
  (n < Z.to_nat (2 ^ 16))%nat.
Proof.
  intros Hx Hstop.
  set (M := Z.to_nat (2 ^ 16)).
  assert (HM : Z.of_nat M = 2 ^ 16) by (unfold M; apply Z2Nat.id; lia).
  destruct (Nat.lt_ge_cases n M) as [Hlt | Hge]; [exact Hlt | exfalso].
  destruct (pigeonhole (trail cfg mem slab x) M) as (i & j & Hij & E).
  { intros k; rewrite HM; apply trail_range; exact Hx. }
  apply (no_return_before_stop cfg mem slab x n Hstop i j); [lia | exact E].
Qed.

Lemma invariant_loop_tagged (cfg : Config) (fuel : nat) (mem : memory)
    (m : Metaslab) (size offset slab curr acc : Z) :
  bump_tagged curr = true ->
  invariant_loop cfg fuel mem m size offset slab curr acc
  = Some (Ok (curr, acc)).
Proof. intros H; destruct fuel; simpl; rewrite H; reflexivity. Qed.




(** X11: [debug_slab_invariant] catches the underflow of the counter.  After
    [sub_use] on a counter that is 0, in a debug build with full checks and
    blocks of at least 2 bytes, the checker fails an assertion, before it
    looks at the free list. *)
Theorem invariant_rejects_underflow (cfg : Config) (fuel : nat)
    (is_short : bool) (mem : memory) (m : Metaslab) (slab : Z) :
  NDEBUG cfg = false ->
  SNMALLOC_CHEAP_CHECKS cfg = false ->
  in_range cfg is_short m ->
  2 <= block_size cfg m ->
  used m = 0 ->
  exists c,
    debug_slab_invariant cfg fuel is_short mem (sub_use m) slab
    = Some (AssertFail c).
Proof.
  intros Hd Hc (HS & Hsize & Hoff & _) H2 Hu.
  unfold debug_slab_invariant, assert.
  rewrite Hd, Hc; simpl orb; cbv iota.
  change (sizeclass (sub_use m)) with (sizeclass m).
  assert (Eu : used (sub_use m) = 65535)
    by (unfold sub_use; simpl; rewrite Hu; reflexivity).
  rewrite Eu.
  fold (block_size cfg m) (initial_offset cfg is_short m).
  rewrite (wrap_small cfg (block_size cfg m)) by lia.
  rewrite (wrap_small cfg (initial_offset cfg is_short m)) by lia.
  rewrite wrap_small by nia.
  destruct (is_full cfg (sub_use m)).
  - replace (SLAB_SIZE cfg =? _) with false
      by (symmetry; apply Z.eqb_neq; nia).
    eauto.
  - replace (SLAB_SIZE cfg >? _) with false
      by (symmetry; rewrite Z.gtb_ltb; apply Z.ltb_ge; nia).
    eauto.
Qed.

Lemma invariant_rejects_underflow_witness :
  exists c,
    debug_slab_invariant ex_cfg 4 false ex_mem (sub_use (set_unused ex_meta))
      ex_slab
    = Some (AssertFail c).
Proof.
  apply (invariant_rejects_underflow ex_cfg 4 false ex_mem
           (set_unused ex_meta) ex_slab).
  - reflexivity.
  - reflexivity.
  - unfold in_range, block_size, initial_offset; simpl; lia.
  - unfold block_size; simpl; lia.
  - reflexivity.
Defined.

(** X12: [debug_slab_invariant] reports the double free.  On a slab that is
    not full and whose blocks in use fit in the slab, a free list that runs
    into a cycle makes the checker end with the fatal error of the cycle
    check. *)
Theorem invariant_reports_double_free (cfg : Config) (is_short : bool)
    (mem : memory) (m : Metaslab) (slab : Z) :
  NDEBUG cfg = false ->
  SNMALLOC_CHEAP_CHECKS cfg = false ->
  in_range cfg is_short m ->
  is_full cfg m = false ->
  used m * block_size cfg m + initial_offset cfg is_short m < SLAB_SIZE cfg ->
  cyclic cfg mem slab (Mod_get cfg (head m)) ->
  debug_slab_invariant cfg acyclic_fuel is_short mem m slab
  = Some (Fatal double_free).
Proof.
  intros Hd Hc Hr Hfull Hlt Hcyc.
  pose proof (accounted_start_range cfg is_short m Hr) as Hstart.
  destruct Hr as (HS & Hsize & Hoff & Hused).
  unfold debug_slab_invariant, assert.
  rewrite Hd, Hc, Hfull; simpl orb; cbv iota.
  fold (block_size cfg m) (initial_offset cfg is_short m).
  rewrite (wrap_small cfg (block_size cfg m)) by lia.
  rewrite (wrap_small cfg (initial_offset cfg is_short m)) by lia.
  rewrite (wrap_small cfg _ Hstart).
  replace (SLAB_SIZE cfg >? _) with true
    by (symmetry; apply Z.gtb_lt; exact Hlt).
  unfold debug_slab_acyclic_free_list; rewrite Hd.
  pose proof (Mod_get_range cfg (head m)) as Hx.
  destruct (acyclic_loop_outcome cfg mem slab (Mod_get cfg (head m))
              acyclic_fuel Hx (le_n _))
    as [(n & Hstop & _) | (_ & _ & Hres)].
  - exfalso.
    pose proof (cyclic_all_inner cfg mem slab _ Hcyc n) as Hi.
    rewrite (proj2 Hstop) in Hi; discriminate.
  - rewrite Hres; reflexivity.
Qed.

Lemma invariant_reports_double_free_witness :
  debug_slab_invariant ex_cfg acyclic_fuel false ex_mem_cycle ex_meta ex_slab
  = Some (Fatal double_free).
Proof.
  apply (invariant_reports_double_free ex_cfg false ex_mem_cycle ex_meta
           ex_slab).
  - reflexivity.
  - reflexivity.
  - unfold in_range, block_size, initial_offset; simpl; lia.
  - reflexivity.
  - unfold block_size, initial_offset; simpl; lia.
  - exists 0%nat, 0%nat, 64; split; [apply hops_O|].
    apply (hops_S ex_cfg ex_mem_cycle ex_slab 0 64 64 64);
      [reflexivity | reflexivity | apply hops_O].
Defined.

Lemma acyclic_loop_reaches (cfg : Config) (mem : memory) (slab x : Z)
    (d : nat) :
  forall fuel k, (d <= fuel)%nat ->
    stops_at cfg mem slab x (k + d) ->
    bump_tagged (trail cfg mem slab x (k + d)) = true ->
    acyclic_loop cfg fuel mem slab
      (trail cfg mem slab x k) (trail cfg mem slab x (k / 2)) (Nat.odd k)
    = Some (Ok tt).
Proof.
  induction d as [|d IH]; intros fuel k Hfuel Hstop Ht.
  - rewrite Nat.add_0_r in Ht; apply acyclic_loop_tagged; exact Ht.
  - destruct fuel as [|fuel]; [lia|].
    rewrite acyclic_loop_turn by (intros j Hj; apply (proj1 Hstop); lia).
    pose proof (no_return_before_stop cfg mem slab x _ Hstop
                  (S k / 2)%nat (S k)) as Hne.
    pose proof (half_lt k) as Hh.
    apply not_eq_sym, Z.eqb_neq in Hne; [|lia].
    rewrite Hne.
    replace (k + S d)%nat with (S k + d)%nat in * by lia.
    apply IH; [lia | exact Hstop | exact Ht].
Qed.

(** X13: on a free list that reaches its bump pointer the cycle check takes
    one turn of its loop per block of the list: with as many turns as the
    list has blocks, it returns normally. *)
Theorem acyclic_check_linear (cfg : Config) (fuel : nat) (mem : memory)
    (m : Metaslab) (slab : Z) (nodes : list Z) (term : Z) :
  segment cfg mem slab (Mod_get cfg (head m)) nodes term ->
  (List.length nodes <= fuel)%nat ->
  debug_slab_acyclic_free_list cfg fuel mem m slab = Some (Ok tt).
Proof.
  intros Hseg Hfuel.
  unfold debug_slab_acyclic_free_list; destruct (NDEBUG cfg); [reflexivity|].
  apply segment_stops in Hseg as (Hstop & Ht & E).
  rewrite E in Ht.
  exact (acyclic_loop_reaches cfg mem slab (Mod_get cfg (head m))
           (List.length nodes) fuel 0 Hfuel Hstop Ht).
Qed.

Lemma acyclic_check_linear_witness :
  debug_slab_acyclic_free_list ex_cfg 1 ex_mem ex_meta ex_slab = Some (Ok tt).
Proof.
  apply (acyclic_check_linear ex_cfg 1 ex_mem ex_meta ex_slab [64] 161).
  - apply (segment_step ex_cfg ex_mem ex_slab 64 161 [] 161);
      [reflexivity | reflexivity |].
    apply segment_end; reflexivity.
  - simpl; lia.
Defined.

(** * The operations on a slab and what they keep *)


Lemma remove_Permutation (p : Z) (l : list Z) :
  NoDup l -> In p l -> Permutation l (p :: remove Z.eq_dec p l).
Proof.
  induction l as [|a l IH]; intros Hnd Hin; [destruct Hin|].
  inversion Hnd as [|a' l' Ha Hl]; subst.
  simpl; destruct (Z.eq_dec p a) as [-> | Hne].
  - rewrite notin_remove by exact Ha; reflexivity.
  - destruct Hin as [E | Hin]; [congruence|].
    rewrite (IH Hl Hin) at 1; apply perm_swap.
Qed.

Lemma NoDup_app_apart (l1 l2 : list Z) (a : Z) :
  NoDup (l1 ++ l2) -> In a l1 -> In a l2 -> False.
Proof.
  induction l1 as [|b l1 IH]; intros Hnd H1 H2; [destruct H1|].
  inversion Hnd as [|? ? Hb Hnd']; subst.
  destruct H1 as [-> | H1].
  - apply Hb, in_or_app; right; exact H2.
  - exact (IH Hnd' H1 H2).
Qed.

Lemma segment_frame (cfg : Config) (mem : memory) (slab x : Z)
    (nodes : list Z) (term a v : Z) :
  segment cfg mem slab x nodes term ->
  (forall n, In n nodes -> a <> pointer_offset slab n) ->
  segment cfg (store mem a v) slab x nodes term.
Proof.
  induction 1 as [x Ht | x y nodes term Ht Hf _ IH]; intros Hfar.
  - apply segment_end; exact Ht.
  - apply (segment_step cfg _ slab x y nodes term Ht).
    + unfold follow_next, load, store in *.
      destruct (Z.eqb_spec (pointer_offset slab x) a) as [E | _];
        [|exact Hf].
      exfalso; apply (Hfar x); [left; reflexivity | symmetry; exact E].
    + apply IH; intros n Hn; apply Hfar; right; exact Hn.
Qed.

Lemma segment_start (cfg : Config) (mem : memory) (slab x : Z)
    (nodes : list Z) (term : Z) :
  segment cfg mem slab x nodes term ->
  (bump_tagged x = true /\ nodes = [] /\ term = x) \/
  (bump_tagged x = false /\
   exists y nodes',
     nodes = x :: nodes' /\
     follow_next cfg mem (pointer_offset slab x) = Ok y /\
     segment cfg mem slab y nodes' term).
Proof.
  intros [x' Ht | x' y nodes' term' Ht Hf Hseg].
  - left; repeat split; assumption.
  - right; split; [exact Ht|]; exists y, nodes'; repeat split; assumption.
Qed.

Lemma segment_first (cfg : Config) (mem : memory) (slab x : Z)
    (nodes : list Z) (term : Z) :
  segment cfg mem slab x nodes term -> x = term \/ In x nodes.
Proof.
  intros [x' Ht | x' y nodes' term' Ht Hf Hseg];
    [left; reflexivity | right; left; reflexivity].
Qed.

Section Model.

Variables (cfg : Config) (is_short : bool) (slab sc : Z).

Hypothesis Hlayout : layout cfg is_short sc.

Lemma blocks_bound : blocks_in_slab cfg is_short sc <= 2 ^ 15.
Proof.
  destruct Hlayout as (HS & Hsize & Heven & Hoff & _ & HN & Htile).
  assert (2 <= sizeclass_to_size cfg sc).
  { pose proof (Z.div_mod (sizeclass_to_size cfg sc) 2 ltac:(lia)); lia. }
  nia.
Qed.

Lemma block_at_range (j : Z) :
  0 <= j < blocks_in_slab cfg is_short sc ->
  0 <= block_at cfg is_short sc j /\
  block_at cfg is_short sc j + sizeclass_to_size cfg sc <= SLAB_SIZE cfg.
Proof.
  destruct Hlayout as (HS & Hsize & Heven & Hoff & _ & HN & Htile).
  intros Hj; unfold block_at; nia.
Qed.

Lemma block_at_inj (i j : Z) :
  block_at cfg is_short sc i = block_at cfg is_short sc j -> i = j.
Proof.
  destruct Hlayout as (HS & Hsize & _).
  unfold block_at; nia.
Qed.

Lemma block_at_parity (j : Z) : block_at cfg is_short sc j mod 2 = 0.
Proof.
  destruct Hlayout as (HS & Hsize & Heven & Hoff & Hoeven & _).
  unfold block_at.
  apply Z.mod_divide in Heven as [b Eb]; [|lia].
  apply Z.mod_divide in Hoeven as [a Ea]; [|lia].
  rewrite Ea, Eb.
  replace (a * 2 + j * (b * 2)) with ((a + j * b) * 2) by ring.
  apply Z.mod_mul; lia.
Qed.

Lemma block_at_untagged (j : Z) :
  bump_tagged (block_at cfg is_short sc j) = false.
Proof. rewrite bump_tagged_parity, block_at_parity; reflexivity. Qed.

Lemma block_below_untagged (k x : Z) :
  block_below cfg is_short sc k x -> bump_tagged x = false.
Proof. intros (j & _ & ->); apply block_at_untagged. Qed.

Lemma block_below_range (k x : Z) :
  k <= blocks_in_slab cfg is_short sc ->
  block_below cfg is_short sc k x ->
  0 <= x /\ x + sizeclass_to_size cfg sc <= SLAB_SIZE cfg.
Proof. intros Hk (j & Hj & ->); apply block_at_range; lia. Qed.

Lemma block_below_mono (k k' x : Z) :
  k <= k' -> block_below cfg is_short sc k x ->
  block_below cfg is_short sc k' x.
Proof. intros Hk (j & Hj & ->); exists j; split; [lia | reflexivity]. Qed.

Lemma block_at_fresh (k : Z) :
  ~ block_below cfg is_short sc k (block_at cfg is_short sc k).
Proof. intros (j & Hj & E); apply block_at_inj in E; lia. Qed.

Lemma Mod_get_set (v : Z) :
  0 <= v < SLAB_SIZE cfg -> Mod_get cfg (Mod_set cfg v) = v.
Proof.
  destruct Hlayout as (HS & _).
  intros Hv; unfold Mod_get, Mod_set.
  rewrite Z.mod_mod, Z.mod_small by lia.
  apply u16_small; lia.
Qed.

Lemma Mod_get_small (v : Z) : 0 <= Mod_get cfg v < SLAB_SIZE cfg.
Proof.
  destruct Hlayout as (HS & _).
  unfold Mod_get.
  pose proof (Z.mod_pos_bound v (SLAB_SIZE cfg) ltac:(lia)).
  rewrite u16_small; lia.
Qed.

Lemma bump_at_tagged (k : Z) : bump_tagged (bump_at cfg is_short sc k) = true.
Proof.
  unfold bump_at; destruct (k =? blocks_in_slab cfg is_short sc);
    [reflexivity|].
  rewrite bump_tagged_parity.
  pose proof (block_at_parity k) as Hp.
  apply Z.eqb_eq.
  rewrite <- Zplus_mod_idemp_l, Hp; reflexivity.
Qed.

Lemma bump_at_range (k : Z) :
  1 <= k <= blocks_in_slab cfg is_short sc ->
  0 <= bump_at cfg is_short sc k < SLAB_SIZE cfg.
Proof.
  intros Hk; unfold bump_at.
  destruct Hlayout as (HS & Hsize & Heven & Hoff & _ & HN & Htile).
  assert (2 <= sizeclass_to_size cfg sc).
  { pose proof (Z.div_mod (sizeclass_to_size cfg sc) 2 ltac:(lia)); lia. }
  destruct (Z.eqb_spec k (blocks_in_slab cfg is_short sc)); [lia|].
  unfold block_at; nia.
Qed.

Lemma bump_at_one (k : Z) :
  1 <= k <= blocks_in_slab cfg is_short sc ->
  (bump_at cfg is_short sc k = 1 <-> k = blocks_in_slab cfg is_short sc).
Proof.
  intros Hk; unfold bump_at.
  destruct Hlayout as (HS & Hsize & Heven & Hoff & _ & HN & Htile).
  destruct (Z.eqb_spec k (blocks_in_slab cfg is_short sc)); [tauto|].
  split; [|contradiction].
  unfold block_at; nia.
Qed.

(** Moving the bump pointer modulo the slab size. *)
Lemma Mod_bump (k : Z) :
  1 <= k <= blocks_in_slab cfg is_short sc ->
  Mod_get cfg (Mod_set cfg (block_at cfg is_short sc k + 1))
  = bump_at cfg is_short sc k.
Proof.
  intros Hk; unfold bump_at.
  destruct Hlayout as (HS & Hsize & Heven & Hoff & _ & HN & Htile).
  destruct (Z.eqb_spec k (blocks_in_slab cfg is_short sc)) as [-> | Hne].
  - unfold block_at; rewrite <- Htile.
    unfold Mod_get, Mod_set.
    rewrite Z.mod_mod by lia.
    rewrite <- Zplus_mod_idemp_l, Z.mod_same by lia.
    rewrite Z.mod_small by lia; reflexivity.
  - pose proof (block_at_range k ltac:(lia)).
    assert (2 <= sizeclass_to_size cfg sc).
    { pose proof (Z.div_mod (sizeclass_to_size cfg sc) 2 ltac:(lia)); lia. }
    apply Mod_get_set; lia.
Qed.

Lemma size_at_least_2 : 2 <= sizeclass_to_size cfg sc.
Proof.
  destruct Hlayout as (HS & Hsize & Heven & _).
  pose proof (Z.div_mod (sizeclass_to_size cfg sc) 2 ltac:(lia)); lia.
Qed.

Lemma untagged_not_1 (x : Z) : bump_tagged x = false -> x <> 1.
Proof. intros H ->; discriminate. Qed.

Ltac red_state :=
  cbn [meta heap claimed used head link sizeclass next
       with_link with_head with_used add_use sub_use carve List.length].

(** A fresh slab. *)
Lemma inv_carve (mem : memory) :
  slab_inv cfg is_short slab sc (carve cfg is_short sc mem).
Proof.
  pose proof Hlayout as (HS & Hsize & Heven & Hoff & Hoeven & HN & Htile).
  assert (Hl : Mod_get cfg (Mod_set cfg (get_initial_link cfg sc is_short))
               = get_initial_link cfg sc is_short)
    by (apply Mod_get_set; nia).
  assert (Hh : Mod_get cfg (Mod_set cfg (get_initial_link cfg sc is_short
                                          + sizeclass_to_size cfg sc + 1))
               = bump_at cfg is_short sc 1).
  { rewrite <- (Mod_bump 1) by lia.
    unfold block_at; rewrite Z.mul_1_l; reflexivity. }
  apply (inv_space cfg is_short slab sc _ 1 []); red_state;
    rewrite ?Hl, ?Hh.
  - reflexivity.
  - lia.
  - apply segment_end, bump_at_tagged.
  - repeat constructor; intros [].
  - intros x [<- | []]; exists 0; split; [lia|].
    unfold block_at; lia.
  - reflexivity.
  - reflexivity.
  - reflexivity.
Qed.

Lemma set_full_marks (m : Metaslab) :
  Mod_get cfg (head m) = 1 ->
  Mod_get cfg (link m) <> 1 ->
  set_full cfg m = Ok (with_link m (Mod_set cfg 1)).
Proof.
  intros Hh Hl; unfold set_full, assert.
  apply Z.eqb_eq in Hh; apply Z.eqb_neq in Hl; rewrite Hh, Hl.
  destruct (NDEBUG cfg); reflexivity.
Qed.

(** Claiming a block keeps the invariant. *)
Lemma inv_claim (st st' : slab_state) (p : Z) :
  slab_inv cfg is_short slab sc st ->
  is_full cfg (meta st) = false ->
  claim cfg slab st = Ok (st', p) ->
  slab_inv cfg is_short slab sc st'.
Proof.
  pose proof Hlayout as (HS & Hsize & Heven & Hoff & Hoeven & HN & Htile).
  pose proof blocks_bound as HNb.
  intros Hinv Hfull Hclaim.
  destruct Hinv as [st Hsc Hl Hh Hnd Hall Hlen Hu
                   | st k nodes Hsc Hk Hseg Hnd Hall Hlen Hfirst Hu].
  { unfold is_full in Hfull; rewrite Hl in Hfull; discriminate. }
  assert (Hcount : 1 + Z.of_nat (List.length (claimed st))
                   + Z.of_nat (List.length nodes) = k).
  { cbn [List.length] in Hlen; rewrite length_app in Hlen; lia. }
  assert (Hused : used (add_use (meta st))
                  = Z.of_nat (List.length (claimed st)) + 1).
  { red_state; rewrite Hu; apply u16_small; lia. }
  assert (HL : bump_tagged (Mod_get cfg (link (meta st))) = false).
  { apply (block_below_untagged k), Hall; left; reflexivity. }
  unfold claim in Hclaim.
  change (head (add_use (meta st))) with (head (meta st)) in Hclaim.
  change (link (add_use (meta st))) with (link (meta st)) in Hclaim.
  change (sizeclass (add_use (meta st))) with (sizeclass (meta st)) in Hclaim.
  destruct (segment_start _ _ _ _ _ _ Hseg)
    as [(Ht & -> & Eterm) | (Ht & y & nodes' & -> & Hf & Hseg')];
    rewrite Ht in Hclaim.
  - (* the head is a bump pointer *)
    rewrite app_nil_r in *; cbn [List.length] in Hcount, Hlen.
    destruct (Z.eqb_spec (Mod_get cfg (head (meta st))) 1) as [E1 | Hne].
    + (* nothing left but the link block *)
      assert (Ek : k = blocks_in_slab cfg is_short sc)
        by (apply bump_at_one; [exact Hk | congruence]).
      rewrite (set_full_marks (add_use (meta st)) E1 (untagged_not_1 _ HL))
        in Hclaim.
      cbn [bind] in Hclaim; injection Hclaim as <- <-.
      apply inv_full; red_state.
      * exact Hsc.
      * apply Mod_get_set; lia.
      * exact E1.
      * exact Hnd.
      * intros x Hx; rewrite <- Ek; apply Hall; exact Hx.
      * rewrite <- Ek; lia.
      * rewrite Hu; unfold u16; rewrite Z.mod_small; lia.
    + (* bump allocation *)
      assert (Hlt : k < blocks_in_slab cfg is_short sc).
      { destruct (Z.eq_dec k (blocks_in_slab cfg is_short sc)) as [E | E];
          [|lia].
        apply bump_at_one in E; [congruence | exact Hk]. }
      assert (Eh : Mod_get cfg (head (meta st)) = block_at cfg is_short sc k + 1).
      { rewrite <- Eterm; unfold bump_at.
        destruct (Z.eqb_spec k (blocks_in_slab cfg is_short sc)); [lia|].
        reflexivity. }
      injection Hclaim as <- <-.
      apply (inv_space cfg is_short slab sc _ (k + 1) []); red_state;
        rewrite ?app_nil_r, ?Eh, ?Hsc.
      * reflexivity.
      * lia.
      * replace (block_at cfg is_short sc k + 1 + sizeclass_to_size cfg sc)
          with (block_at cfg is_short sc (k + 1) + 1)
          by (unfold block_at; ring).
        rewrite Mod_bump by lia.
        apply segment_end, bump_at_tagged.
      * replace (block_at cfg is_short sc k + 1 - 1)
          with (block_at cfg is_short sc k) by lia.
        apply (Permutation_NoDup
                 (l := block_at cfg is_short sc k
                       :: Mod_get cfg (link (meta st)) :: claimed st));
          [apply perm_swap|].
        constructor; [|exact Hnd].
        intros Hin; exact (block_at_fresh k (Hall _ Hin)).
      * replace (block_at cfg is_short sc k + 1 - 1)
          with (block_at cfg is_short sc k) by lia.
        intros x [<- | [<- | Hx]].
        -- apply (block_below_mono k); [lia|]; apply Hall; left; reflexivity.
        -- exists k; split; [lia | reflexivity].
        -- apply (block_below_mono k); [lia|]; apply Hall; right; exact Hx.
      * cbn [List.length]; lia.
      * intros _; apply Hfirst; exact Hlt.
      * rewrite Hu; unfold u16; rewrite Z.mod_small; lia.
  - (* the head is a block of the free list *)
    rewrite Hf in Hclaim; cbn [bind] in Hclaim; injection Hclaim as <- <-.
    assert (Hperm : Permutation
                      (Mod_get cfg (link (meta st))
                       :: claimed st ++ Mod_get cfg (head (meta st)) :: nodes')
                      (Mod_get cfg (link (meta st))
                       :: (Mod_get cfg (head (meta st)) :: claimed st)
                          ++ nodes')).
    { constructor; symmetry; apply Permutation_middle. }
    assert (Hy : Mod_get cfg (Mod_set cfg y) = y).
    { apply Mod_get_set.
      destruct (segment_first _ _ _ _ _ _ Hseg') as [-> | Hin].
      - apply bump_at_range; exact Hk.
      - pose proof (block_below_range k y ltac:(lia)
                      (Hall y ltac:(right; apply in_or_app; right; right;
                                    exact Hin))).
        pose proof size_at_least_2; lia. }
    apply (inv_space cfg is_short slab sc _ k nodes'); red_state; rewrite ?Hy.
    + exact Hsc.
    + exact Hk.
    + exact Hseg'.
    + exact (Permutation_NoDup Hperm Hnd).
    + intros x Hx; apply Hall.
      exact (Permutation_in x (Permutation_sym Hperm) Hx).
    + cbn [List.length] in Hlen; rewrite length_app in Hlen |- *;
        cbn [List.length] in Hlen |- *; lia.
    + exact Hfirst.
    + rewrite Hu; unfold u16; rewrite Z.mod_small;
        [|cbn [List.length] in Hlen; rewrite length_app in Hlen;
          cbn [List.length] in Hlen; lia].
      lia.
Qed.

Lemma follow_next_stored (mem : memory) (a h : Z) :
  0 <= h < 2 ^ 16 ->
  follow_next cfg (store_next cfg mem a h) a = Ok h.
Proof.
  intros Hh; unfold follow_next, store_next.
  rewrite load_store_same.
  unfold wrap; rewrite Z.mod_small by (apply encode_next_range; exact Hh).
  apply decode_encode; exact Hh.
Qed.

(** Releasing a claimed block keeps the invariant. *)
Lemma inv_release (st st' : slab_state) (p : Z) :
  slab_inv cfg is_short slab sc st ->
  In p (claimed st) ->
  release cfg slab st p = Some st' ->
  slab_inv cfg is_short slab sc st'.
Proof.
  pose proof Hlayout as (HS & Hsize & Heven & Hoff & Hoeven & HN & Htile).
  pose proof blocks_bound as HNb.
  intros Hinv Hp Hrel.
  assert (Hpos : (1 <= List.length (claimed st))%nat).
  { destruct (claimed st); [destruct Hp | cbn [List.length]; lia]. }
  unfold release in Hrel.
  destruct (is_unused (sub_use (meta st))) eqn:Hunused; [discriminate|].
  destruct Hinv as [st Hsc Hl Hh Hnd Hall Hlen Hu
                   | st k nodes Hsc Hk Hseg Hnd Hall Hlen Hfirst Hu].
  - (* the slab was full: the block becomes the link node *)
    unfold is_full in Hrel; rewrite Hl in Hrel; cbn [Z.eqb Pos.eqb] in Hrel.
    injection Hrel as <-.
    pose proof (remove_Permutation p (claimed st) Hnd Hp) as Hperm.
    pose proof (block_below_range _ p (Z.le_refl _) (Hall p Hp)) as Hpr.
    pose proof size_at_least_2 as H2.
    assert (Elink : Mod_get cfg (Mod_set cfg p) = p)
      by (apply Mod_get_set; lia).
    apply (inv_space cfg is_short slab sc _
             (blocks_in_slab cfg is_short sc) []);
      red_state; rewrite ?app_nil_r, ?Elink.
    + exact Hsc.
    + lia.
    + rewrite Hh.
      replace (bump_at cfg is_short sc (blocks_in_slab cfg is_short sc))
        with 1 by (unfold bump_at; rewrite Z.eqb_refl; reflexivity).
      apply segment_end; reflexivity.
    + exact (Permutation_NoDup Hperm Hnd).
    + intros x Hx; apply Hall.
      exact (Permutation_in x (Permutation_sym Hperm) Hx).
    + rewrite <- Hlen, (Permutation_length Hperm); reflexivity.
    + lia.
    + pose proof (Permutation_length Hperm) as E;
        cbn [List.length] in E.
      rewrite Hu; unfold u16; rewrite Z.mod_small; lia.
  - (* the slab had space: the block becomes the head of the free list *)
    assert (HL : bump_tagged (Mod_get cfg (link (meta st))) = false).
    { apply (block_below_untagged k), Hall; left; reflexivity. }
    unfold is_full in Hrel.
    replace (Mod_get cfg (link (meta st)) =? 1) with false in Hrel
      by (symmetry; apply Z.eqb_neq, untagged_not_1; exact HL).
    injection Hrel as <-.
    assert (Hnd' : NoDup (claimed st)).
    { inversion Hnd as [|? ? _ Hnd']; subst.
      exact (NoDup_app_remove_r _ _ Hnd'). }
    pose proof (remove_Permutation p (claimed st) Hnd' Hp) as Hperm0.
    assert (Hperm : Permutation
                      (Mod_get cfg (link (meta st)) :: claimed st ++ nodes)
                      (Mod_get cfg (link (meta st))
                       :: remove Z.eq_dec p (claimed st) ++ p :: nodes)).
    { constructor.
      rewrite Hperm0 at 1.
      apply (Permutation_middle (remove Z.eq_dec p (claimed st)) nodes p). }
    assert (Hpb : block_below cfg is_short sc k p)
      by (apply Hall; right; apply in_or_app; left; exact Hp).
    pose proof (block_below_range k p ltac:(lia) Hpb) as Hpr.
    pose proof size_at_least_2 as H2.
    assert (Ehead : Mod_get cfg (Mod_set cfg p) = p)
      by (apply Mod_get_set; lia).
    assert (Hfar : forall n, In n nodes ->
              pointer_offset slab p <> pointer_offset slab n).
    { intros n Hn E; unfold pointer_offset in E.
      assert (n = p) by lia; subst n.
      inversion Hnd as [|? ? _ Hnd'']; subst.
      apply (NoDup_app_apart _ _ p Hnd''); assumption. }
    apply (inv_space cfg is_short slab sc _ k (p :: nodes));
      red_state; rewrite ?Ehead.
    + exact Hsc.
    + exact Hk.
    + apply (segment_step cfg _ slab p (Mod_get cfg (head (meta st)))).
      * exact (block_below_untagged k p Hpb).
      * apply follow_next_stored, Mod_get_range.
      * apply segment_frame; [exact Hseg | exact Hfar].
    + exact (Permutation_NoDup Hperm Hnd).
    + intros x Hx; apply Hall.
      exact (Permutation_in x (Permutation_sym Hperm) Hx).
    + pose proof (Permutation_length Hperm) as E;
        cbn [List.length] in E, Hlen |- *; lia.
    + exact Hfirst.
    + pose proof (Permutation_length Hperm0) as E;
        cbn [List.length] in E.
      rewrite Hu; unfold u16; rewrite Z.mod_small;
        [lia|].
      cbn [List.length] in Hlen; rewrite length_app in Hlen; lia.
Qed.

(** Writing where the callers may write keeps the invariant. *)
Lemma inv_write (st : slab_state) (a v : Z) :
  slab_inv cfg is_short slab sc st ->
  writable cfg slab st a ->
  slab_inv cfg is_short slab sc
    {| meta := meta st; heap := store (heap st) a v; claimed := claimed st |}.
Proof.
  pose proof Hlayout as (HS & Hsize & _).
  intros Hinv Hw.
  destruct Hinv as [st Hsc Hl Hh Hnd Hall Hlen Hu
                   | st k nodes Hsc Hk Hseg Hnd Hall Hlen Hfirst Hu].
  - apply inv_full; assumption.
  - apply (inv_space cfg is_short slab sc _ k nodes); try assumption.
    cbn [meta heap].
    apply segment_frame; [exact Hseg|].
    intros n Hn E; unfold pointer_offset in E.
    assert (Hnb : block_below cfg is_short sc k n)
      by (apply Hall; right; apply in_or_app; right; exact Hn).
    assert (Hother : forall q,
              In q (Mod_get cfg (link (meta st)) :: claimed st) ->
              slab + q <= a < slab + q + sizeclass_to_size cfg sc -> False).
    { intros q Hq Hrange.
      assert (Hqb : block_below cfg is_short sc k q).
      { apply Hall; destruct Hq as [<- | Hq];
          [left; reflexivity | right; apply in_or_app; left; exact Hq]. }
      assert (Hqn : q <> n).
      { intros ->.
        inversion Hnd as [|? ? Hnl Hnd']; subst.
        destruct Hq as [E' | Hq].
        - apply Hnl; rewrite E'; apply in_or_app; right; exact Hn.
        - apply (NoDup_app_apart _ _ n Hnd'); assumption. }
      destruct Hqb as (i & _ & ->), Hnb as (j & _ & ->).
      unfold block_at in *.
      destruct (Z.lt_trichotomy i j) as [Hij | [-> | Hij]];
        [|contradiction|].
      - pose proof (Z.mul_le_mono_nonneg_r (i + 1) j
                      (sizeclass_to_size cfg sc) ltac:(lia) ltac:(lia)).
        lia.
      - pose proof (Z.mul_le_mono_nonneg_r (j + 1) i
                      (sizeclass_to_size cfg sc) ltac:(lia) ltac:(lia)).
        lia. }
    destruct Hw as [(q & Hq & Hrange) | (_ & Hrange)]; rewrite Hsc in Hrange.
    + apply (Hother q); [right; exact Hq | exact Hrange].
    + apply (Hother (Mod_get cfg (link (meta st))));
        [left; reflexivity | exact Hrange].
Qed.

(** Every state the operations reach satisfies the invariant. *)
Lemma reachable_inv (st : slab_state) :
  reachable cfg is_short slab sc st -> slab_inv cfg is_short slab sc st.
Proof.
  induction 1 as [mem | st st' p _ IH Hfull Hclaim | st st' p _ IH Hp Hrel
                 | st a v _ IH Hw].
  - apply inv_carve.
  - exact (inv_claim st st' p IH Hfull Hclaim).
  - exact (inv_release st st' p IH Hp Hrel).
  - exact (inv_write st a v IH Hw).
Qed.

End Model.

(** ** Running [debug_slab_invariant] on a state the operations keep *)

Lemma assert_true (cfg : Config) (c : bool) (text : string) :
  c = true -> assert cfg c text = Ok tt.
Proof. intros ->; unfold assert; destruct (NDEBUG cfg); reflexivity. Qed.

(** The accounting loop on a list whose blocks pass its assertions. *)
Lemma invariant_loop_run (cfg : Config) (is_short : bool) (mem : memory)
    (m : Metaslab) (slab x : Z) (nodes : list Z) (term : Z) :
  segment cfg mem slab x nodes term ->
  forall fuel acc,
    (List.length nodes <= fuel)%nat ->
    (forall n, In n nodes ->
       block_aligned cfg is_short m n /\ n <> Mod_get cfg (link m)) ->
    0 <= wrap cfg (sizeclass_to_size cfg (sizeclass m)) ->
    0 <= acc ->
    acc + Z.of_nat (List.length nodes)
          * wrap cfg (sizeclass_to_size cfg (sizeclass m))
    <= SLAB_SIZE cfg ->
    SLAB_SIZE cfg <= 2 ^ 16 ->
    invariant_loop cfg fuel mem m
      (wrap cfg (sizeclass_to_size cfg (sizeclass m)))
      (wrap cfg (get_initial_link cfg (sizeclass m) is_short))
      slab x acc
    = Some (Ok (term,
                acc + Z.of_nat (List.length nodes)
                      * wrap cfg (sizeclass_to_size cfg (sizeclass m)))).
Proof.
  induction 1 as [x Ht | x y nodes term Ht Hf _ IH];
    intros fuel acc Hfuel Hok Hsize Hacc Hsum HS.
  - rewrite invariant_loop_tagged by exact Ht.
    cbn [List.length]; do 3 f_equal; lia.
  - cbn [List.length] in Hfuel, Hsum |- *.
    destruct fuel as [|fuel]; [lia|].
    destruct (Hok x (or_introl eq_refl)) as [Hal Hlink].
    cbn [invariant_loop]; rewrite Ht.
    unfold invariant_step.
    rewrite assert_true by (apply Z.eqb_eq; exact Hal).
    cbn [bind].
    rewrite (wrap_small cfg (acc + _)) by nia.
    rewrite assert_true by (rewrite Z.geb_leb; apply Z.leb_le; nia).
    cbn [bind].
    rewrite assert_true
      by (apply negb_true_iff, Z.eqb_neq; exact Hlink).
    cbn [bind]; rewrite Hf; cbn [bind].
    rewrite IH; [do 3 f_equal; lia | lia | | exact Hsize | lia | nia | exact HS].
    intros n Hn; apply Hok; right; exact Hn.
Qed.

Section Run.

Variables (cfg : Config) (is_short : bool) (slab sc : Z).

Hypothesis Hlayout : layout cfg is_short sc.
Hypothesis Haligned : blocks_aligned cfg is_short sc.

Lemma land_clear_bump (k : Z) :
  Z.land (block_at cfg is_short sc k + 1) (Z.lnot 1)
  = block_at cfg is_short sc k.
Proof.
  rewrite land_clear_tag.
  pose proof (block_at_parity cfg is_short sc Hlayout k) as Hp.
  pose proof (Z.div_mod (block_at cfg is_short sc k) 2 ltac:(lia)) as Hd.
  rewrite Hp in Hd.
  replace (block_at cfg is_short sc k + 1)
    with (1 + (block_at cfg is_short sc k / 2) * 2) by lia.
  rewrite Z.div_add by lia.
  change (1 / 2) with 0; lia.
Qed.

(** On every state that satisfies the invariant [debug_slab_invariant]
    returns normally. *)
Lemma inv_checked (st : slab_state) :
  slab_inv cfg is_short slab sc st ->
  debug_slab_invariant cfg acyclic_fuel is_short (heap st) (meta st) slab
  = Some (Ok tt).
Proof.
  pose proof Hlayout as (HS & Hsize & Heven & Hoff & Hoeven & HN & Htile).
  pose proof (blocks_bound cfg is_short sc Hlayout) as HNb.
  pose proof (size_at_least_2 cfg is_short sc Hlayout) as H2.
  intros Hinv; unfold debug_slab_invariant.
  destruct (NDEBUG cfg || SNMALLOC_CHEAP_CHECKS cfg) eqn:Hflags;
    [reflexivity|].
  apply orb_false_iff in Hflags as [Hd _].
  assert (Hsz : sizeclass_to_size cfg sc <= 2 ^ 16) by nia.
  assert (Hof : get_initial_link cfg sc is_short < 2 ^ 16) by nia.
  destruct Hinv as [st Hsc Hl Hh Hnd Hall Hlen Hu
                   | st k nodes Hsc Hk Hseg Hnd Hall Hlen Hfirst Hu];
    rewrite Hsc;
    rewrite (wrap_small cfg (sizeclass_to_size cfg sc)) by lia;
    rewrite (wrap_small cfg (get_initial_link cfg sc is_short)) by lia.
  - (* full *)
    unfold is_full; rewrite Hl; cbn [Z.eqb Pos.eqb].
    rewrite Hu, Hlen, wrap_small by nia.
    rewrite assert_true; [reflexivity | apply Z.eqb_eq; lia].
  - (* with space *)
    assert (Hcount : 1 + Z.of_nat (List.length (claimed st))
                     + Z.of_nat (List.length nodes) = k).
    { cbn [List.length] in Hlen; rewrite length_app in Hlen; lia. }
    assert (HL : bump_tagged (Mod_get cfg (link (meta st))) = false).
    { apply (block_below_untagged cfg is_short sc Hlayout k), Hall.
      left; reflexivity. }
    assert (Hnotfull : is_full cfg (meta st) = false).
    { unfold is_full; apply Z.eqb_neq, untagged_not_1; exact HL. }
    rewrite Hnotfull, Hu.
    rewrite wrap_small by nia.
    rewrite assert_true by (apply Z.gtb_lt; nia).
    (* the cycle check *)
    pose proof (segment_stops cfg _ slab _ _ _ Hseg) as (Hstop & Ht & Eterm).
    pose proof (stops_bound cfg _ slab _ _ (Mod_get_range cfg _) Hstop) as Hn.
    assert (Hfuel : (List.length nodes <= acyclic_fuel)%nat)
      by (rewrite acyclic_fuel_double; lia).
    unfold debug_slab_acyclic_free_list; rewrite Hd.
    rewrite Eterm in Ht.
    pose proof (acyclic_loop_reaches cfg _ slab (Mod_get cfg (head (meta st)))
                  (List.length nodes) acyclic_fuel 0 Hfuel Hstop Ht) as Hacy.
    change (acyclic_loop cfg acyclic_fuel (heap st) slab
              (Mod_get cfg (head (meta st))) (Mod_get cfg (head (meta st)))
              false = Some (Ok tt)) in Hacy.
    rewrite Hacy.
    (* the accounting loop *)
    assert (Hnodes : forall n, In n nodes ->
              block_aligned cfg is_short (meta st) n /\
              n <> Mod_get cfg (link (meta st))).
    { intros n Hin; split.
      - destruct (Hall n ltac:(right; apply in_or_app; right; exact Hin))
          as (j & Hj & ->).
        unfold block_aligned; rewrite Hsc; apply Haligned; lia.
      - intros ->.
        inversion Hnd as [|? ? Hnl _]; subst.
        apply Hnl, in_or_app; right; exact Hin. }
    pose proof (invariant_loop_run cfg is_short (heap st) (meta st) slab
                  _ _ _ Hseg acyclic_fuel
                  (Z.of_nat (List.length (claimed st))
                   * sizeclass_to_size cfg sc
                   + get_initial_link cfg sc is_short)
                  Hfuel Hnodes) as Hloop.
    rewrite Hsc in Hloop.
    rewrite (wrap_small cfg (sizeclass_to_size cfg sc)) in Hloop by lia.
    rewrite (wrap_small cfg (get_initial_link cfg sc is_short)) in Hloop
      by lia.
    rewrite Hloop by nia.
    (* behind the loop *)
    unfold invariant_tail; rewrite Hsc.
    unfold bump_at.
    destruct (Z.eqb_spec k (blocks_in_slab cfg is_short sc)) as [Ek | Hne].
    + cbn [Z.eqb Pos.eqb negb bind].
      rewrite assert_true by (rewrite Hnotfull; reflexivity).
      cbn [bind].
      rewrite wrap_small by nia.
      apply f_equal, assert_true, Z.eqb_eq; nia.
    + pose proof (block_at_range cfg is_short sc Hlayout k ltac:(lia))
        as Hbr.
      replace (block_at cfg is_short sc k + 1 =? 1) with false
        by (symmetry; apply Z.eqb_neq; unfold block_at in *; nia).
      cbn [negb].
      rewrite land_clear_bump.
      rewrite assert_true
        by (apply Z.eqb_eq;
            rewrite <- (wrap_small cfg (sizeclass_to_size cfg sc)) by lia;
            rewrite <- (wrap_small cfg (get_initial_link cfg sc is_short))
              at 1 by lia;
            apply Haligned; lia).
      cbn [bind].
      replace (block_at cfg is_short sc k + 1 - 1)
        with (block_at cfg is_short sc k) by lia.
      rewrite (wrap_small cfg (SLAB_SIZE cfg - block_at cfg is_short sc k))
        by lia.
      rewrite assert_true by (apply Z.eqb_eq, Hfirst; lia).
      cbn [bind].
      rewrite assert_true by (rewrite Hnotfull; reflexivity).
      cbn [bind].
      unfold block_at in *.
      rewrite (wrap_small cfg
                 (Z.of_nat (List.length (claimed st))
                  * sizeclass_to_size cfg sc
                  + get_initial_link cfg sc is_short
                  + Z.of_nat (List.length nodes) * sizeclass_to_size cfg sc
                  + _)) by nia.
      rewrite wrap_small by nia.
      apply f_equal, assert_true, Z.eqb_eq; nia.
Qed.

End Run.

(** ** The states the operations reach *)

Lemma segment_debug (cfg : Config) (mem : memory) (slab x : Z)
    (nodes : list Z) (term : Z) :
  segment cfg mem slab x nodes term ->
  segment (with_debug_checks cfg) mem slab x nodes term.
Proof.
  induction 1 as [x Ht | x y nodes term Ht Hf _ IH].
  - apply segment_end; exact Ht.
  - exact (segment_step (with_debug_checks cfg) mem slab x y nodes term
             Ht Hf IH).
Qed.

Lemma slab_inv_debug (cfg : Config) (is_short : bool) (slab sc : Z)
    (st : slab_state) :
  slab_inv cfg is_short slab sc st ->
  slab_inv (with_debug_checks cfg) is_short slab sc st.
Proof.
  intros [st' Hsc Hl Hh Hnd Hall Hlen Hu
         | st' k nodes Hsc Hk Hseg Hnd Hall Hlen Hfirst Hu].
  - exact (inv_full (with_debug_checks cfg) is_short slab sc st'
             Hsc Hl Hh Hnd Hall Hlen Hu).
  - exact (inv_space (with_debug_checks cfg) is_short slab sc st' k nodes
             Hsc Hk (segment_debug cfg _ slab _ _ _ Hseg) Hnd Hall Hlen
             Hfirst Hu).
Qed.

(** Where no cache-friendly offset is applied the blocks pass the alignment
    test. *)
Lemma blocks_aligned_plain (cfg : Config) (is_short : bool) (sc : Z) :
  layout cfg is_short sc ->
  (forall x, remove_cache_friendly_offset cfg x sc = x) ->
  blocks_aligned cfg is_short sc.
Proof.
  intros Hlayout Hid j Hj.
  pose proof Hlayout as (HS & Hsize & Heven & Hoff & Hoeven & HN & Htile).
  pose proof (block_at_range cfg is_short sc Hlayout j Hj) as Hr.
  rewrite Hid, u16_small by lia.
  rewrite (wrap_small cfg (get_initial_link cfg sc is_short)) by nia.
  rewrite (wrap_small cfg (sizeclass_to_size cfg sc)) by nia.
  unfold block_at in *.
  replace (get_initial_link cfg sc is_short + j * sizeclass_to_size cfg sc
           - get_initial_link cfg sc is_short)
    with (j * sizeclass_to_size cfg sc) by lia.
  rewrite wrap_small by nia.
  apply Z.mod_mul; lia.
Qed.

Lemma inv_accounted (cfg : Config) (is_short : bool) (slab sc : Z)
    (st : slab_state) :
  layout cfg is_short sc ->
  slab_inv cfg is_short slab sc st ->
  (is_full cfg (meta st) = true -> every_block_used cfg is_short (meta st)) /\
  (is_full cfg (meta st) = false ->
   exists nodes term,
     segment cfg (heap st) slab (Mod_get cfg (head (meta st))) nodes term /\
     accounted cfg is_short (meta st) nodes term = SLAB_SIZE cfg).
Proof.
  intros Hlayout Hinv.
  pose proof Hlayout as (HS & Hsize & Heven & Hoff & Hoeven & HN & Htile).
  destruct Hinv as [st Hsc Hl Hh Hnd Hall Hlen Hu
                   | st k nodes Hsc Hk Hseg Hnd Hall Hlen Hfirst Hu].
  - split.
    + intros _; unfold every_block_used, block_size, initial_offset.
      rewrite Hsc, Hu, Hlen; lia.
    + unfold is_full; rewrite Hl; discriminate.
  - split.
    + intros Hfull; exfalso.
      unfold is_full in Hfull; apply Z.eqb_eq in Hfull.
      assert (HL : bump_tagged (Mod_get cfg (link (meta st))) = false).
      { apply (block_below_untagged cfg is_short sc Hlayout k), Hall.
        left; reflexivity. }
      rewrite Hfull in HL; discriminate.
    + intros _; exists nodes, (bump_at cfg is_short sc k).
      split; [exact Hseg|].
      cbn [List.length] in Hlen; rewrite length_app in Hlen.
      unfold accounted, bump_headroom, block_size, initial_offset, bump_at.
      rewrite Hsc, Hu.
      destruct (Z.eqb_spec k (blocks_in_slab cfg is_short sc)) as [Ek | Hne].
      * cbn [Z.eqb Pos.eqb]; nia.
      * pose proof (block_at_range cfg is_short sc Hlayout k ltac:(lia)).
        replace (block_at cfg is_short sc k + 1 =? 1) with false
          by (symmetry; apply Z.eqb_neq; unfold block_at in *; nia).
        unfold block_at in *; nia.
Qed.

(** C3, amended: in every Metaslab state reachable by the operations that
    claim and release blocks under the documented discipline, the bytes of
    the blocks in use, plus the initial offset of the size class (the bytes
    in front of the first block), plus the bytes of the blocks of the free
    list, plus the bump headroom, plus the link block of a slab that is not
    full, are SLAB_SIZE exactly; equivalently, every assertion in
    [debug_slab_invariant] holds in such states: both are proved of every
    such state, the second as the checker, compiled with its assertions,
    returning normally.  On a full slab the free list and the headroom are
    empty and the sum is the one of the blocks in use. *)
Theorem accounting_invariant (cfg : Config) (is_short : bool) (slab sc : Z)
    (st : slab_state) :
  layout cfg is_short sc ->
  blocks_aligned cfg is_short sc ->
  reachable cfg is_short slab sc st ->
  (is_full cfg (meta st) = true -> every_block_used cfg is_short (meta st)) /\
  (is_full cfg (meta st) = false ->
   exists nodes term,
     segment cfg (heap st) slab (Mod_get cfg (head (meta st))) nodes term /\
     accounted cfg is_short (meta st) nodes term = SLAB_SIZE cfg) /\
  debug_slab_invariant (with_debug_checks cfg) acyclic_fuel is_short
    (heap st) (meta st) slab
  = Some (Ok tt).
Proof.
  intros Hlayout Haligned Hreach.
  pose proof (reachable_inv cfg is_short slab sc Hlayout st Hreach) as Hinv.
  destruct (inv_accounted cfg is_short slab sc st Hlayout Hinv) as [Hf Hs].
  split; [exact Hf|]; split; [exact Hs|].
  apply (inv_checked (with_debug_checks cfg) is_short slab sc).
  - exact Hlayout.
  - exact Haligned.
  - apply slab_inv_debug; exact Hinv.
Qed.

(** The blocks of the slab, in the order of their offsets. *)
Lemma claimed_covers (cfg : Config) (is_short : bool) (sc : Z)
    (l : list Z) :
  NoDup l ->
  (forall x, In x l ->
     block_below cfg is_short sc (blocks_in_slab cfg is_short sc) x) ->
  Z.of_nat (List.length l) = blocks_in_slab cfg is_short sc ->
  forall j, 0 <= j < blocks_in_slab cfg is_short sc ->
    In (block_at cfg is_short sc j) l.
Proof.
  intros Hnd Hall Hlen j Hj.
  set (all := map (fun i => block_at cfg is_short sc (Z.of_nat i))
                (seq 0 (List.length l))).
  assert (Hincl : incl l all).
  { intros x Hx; destruct (Hall x Hx) as (i & Hi & ->).
    apply in_map_iff; exists (Z.to_nat i); split.
    - rewrite Z2Nat.id by lia; reflexivity.
    - apply in_seq; lia. }
  assert (Hback : incl all l).
  { apply NoDup_length_incl; [exact Hnd | | exact Hincl].
    unfold all; rewrite length_map, length_seq; lia. }
  apply Hback, in_map_iff; exists (Z.to_nat j); split.
  - rewrite Z2Nat.id by lia; reflexivity.
  - apply in_seq; lia.
Qed.

(** C4: in every Metaslab state reachable by the operations that claim and
    release blocks under the documented discipline, [is_full], which reads
    [link == 1], is true if and only if every block of the slab is claimed
    and [head] is 1, the mark of a slab bump-allocated to its end; a full
    slab counts all its blocks as used. *)
Theorem fullness_equivalence (cfg : Config) (is_short : bool) (slab sc : Z)
    (st : slab_state) :
  layout cfg is_short sc ->
  reachable cfg is_short slab sc st ->
  is_full cfg (meta st) = (Mod_get cfg (link (meta st)) =? 1) /\
  (is_full cfg (meta st) = true <->
   every_block_claimed cfg is_short sc st /\
   Mod_get cfg (head (meta st)) = 1) /\
  (is_full cfg (meta st) = true -> every_block_used cfg is_short (meta st)).
Proof.
  intros Hlayout Hreach.
  pose proof (reachable_inv cfg is_short slab sc Hlayout st Hreach) as Hinv.
  split; [reflexivity|].
  split; [|apply (inv_accounted cfg is_short slab sc st Hlayout Hinv)].
  destruct Hinv as [st Hsc Hl Hh Hnd Hall Hlen Hu
                   | st k nodes Hsc Hk Hseg Hnd Hall Hlen Hfirst Hu].
  - unfold is_full; rewrite Hl; split; [intros _ | reflexivity].
    split; [|exact Hh].
    exact (claimed_covers cfg is_short sc _ Hnd Hall Hlen).
  - assert (HL : bump_tagged (Mod_get cfg (link (meta st))) = false).
    { apply (block_below_untagged cfg is_short sc Hlayout k), Hall.
      left; reflexivity. }
    unfold is_full; split.
    + intros Hfull; apply Z.eqb_eq in Hfull.
      rewrite Hfull in HL; discriminate.
    + intros [Hevery _]; exfalso.
      destruct (Hall (Mod_get cfg (link (meta st))) (or_introl eq_refl))
        as (j & Hj & E).
      inversion Hnd as [|? ? Hnl _]; subst.
      apply Hnl, in_or_app; left.
      rewrite E; apply Hevery; lia.
Qed.

(** C5: in every reachable state of a slab that is not full, the free list
    traversed from [head] is finite, meets no block twice, reaches a bump
    pointer (low bit 1) after at most as many blocks as the slab holds, and
    does not go through the link offset. *)
Theorem free_list_segment_invariant (cfg : Config) (is_short : bool)
    (slab sc : Z) (st : slab_state) :
  layout cfg is_short sc ->
  reachable cfg is_short slab sc st ->
  is_full cfg (meta st) = false ->
  exists nodes term,
    segment cfg (heap st) slab (Mod_get cfg (head (meta st))) nodes term /\
    bump_tagged term = true /\
    NoDup nodes /\
    Z.of_nat (List.length nodes) <= blocks_in_slab cfg is_short sc /\
    Z.of_nat (List.length nodes) + used (meta st)
    < blocks_in_slab cfg is_short sc /\
    ~ In (Mod_get cfg (link (meta st))) nodes.
Proof.
  intros Hlayout Hreach Hfull.
  pose proof (reachable_inv cfg is_short slab sc Hlayout st Hreach) as Hinv.
  destruct Hinv as [st Hsc Hl Hh Hnd Hall Hlen Hu
                   | st k nodes Hsc Hk Hseg Hnd Hall Hlen Hfirst Hu].
  { unfold is_full in Hfull; rewrite Hl in Hfull; discriminate. }
  cbn [List.length] in Hlen; rewrite length_app in Hlen.
  exists nodes, (bump_at cfg is_short sc k); repeat split.
  - exact Hseg.
  - apply (bump_at_tagged cfg is_short sc Hlayout).
  - inversion Hnd as [|? ? _ Hnd']; subst.
    exact (NoDup_app_remove_l _ _ Hnd').
  - lia.
  - lia.
  - intros Hin.
    inversion Hnd as [|? ? Hnl _]; subst.
    apply Hnl, in_or_app; right; exact Hin.
Qed.

(** The bump pointer of a fresh slab starts behind the link block.  Were it
    to start at the link block itself (head = initial offset + 1), the
    checker would count the link block twice, in the bump headroom and as
    the link node, and fail its last assertion on the fresh slab. *)
Lemma bump_from_link_rejected :
  exists c,
    debug_slab_invariant ex_cfg acyclic_fuel false (fun _ => 0)
      {| used := 0; head := 17; link := 16; sizeclass := 2; next := 0 |}
      ex_slab
    = Some (AssertFail c).
Proof. eexists; vm_compute; reflexivity. Qed.

(** ** The concrete slabs

    The slab of 48-byte blocks is carved, the blocks at offsets 64 and 112
    are claimed and the block at 64 is released. *)
Ltac ex_state_reached :=
  apply (reach_release ex_cfg false ex_slab 2
           {| meta := {| used := 2; head := 161; link := 16; sizeclass := 2;
                         next := 0 |};
              heap := fun _ => 0; claimed := [112; 64] |}
           ex_state 64);
  [ apply (reach_claim ex_cfg false ex_slab 2
             {| meta := {| used := 1; head := 113; link := 16; sizeclass := 2;
                           next := 0 |};
                heap := fun _ => 0; claimed := [64] |}
             _ 112);
    [ apply (reach_claim ex_cfg false ex_slab 2
               (carve ex_cfg false 2 (fun _ => 0)) _ 64);
      [ apply reach_carve | reflexivity | reflexivity ]
    | reflexivity | reflexivity ]
  | right; left; reflexivity
  | reflexivity ].

(** The slab of three 64-byte blocks is carved and its blocks are claimed:
    128, 192 and, last, the link block 64. *)
Ltac ex_state_full_reached :=
  apply (reach_claim ex_cfg_small false ex_slab 2
           {| meta := {| used := 2; head := 1; link := 64; sizeclass := 2;
                         next := 0 |};
              heap := fun _ => 0; claimed := [192; 128] |}
           ex_state_full 64);
  [ apply (reach_claim ex_cfg_small false ex_slab 2
             {| meta := {| used := 1; head := 193; link := 64; sizeclass := 2;
                           next := 0 |};
                heap := fun _ => 0; claimed := [128] |}
             _ 192);
    [ apply (reach_claim ex_cfg_small false ex_slab 2
               (carve ex_cfg_small false 2 (fun _ => 0)) _ 128);
      [ apply reach_carve | reflexivity | reflexivity ]
    | reflexivity | reflexivity ]
  | reflexivity
  | reflexivity ].

Ltac ex_layout :=
  vm_compute; repeat split; (reflexivity || discriminate).

Lemma accounting_invariant_witness :
  (is_full ex_cfg (meta ex_state) = true ->
   every_block_used ex_cfg false (meta ex_state)) /\
  (is_full ex_cfg (meta ex_state) = false ->
   exists nodes term,
     segment ex_cfg (heap ex_state) ex_slab
       (Mod_get ex_cfg (head (meta ex_state))) nodes term /\
     accounted ex_cfg false (meta ex_state) nodes term = SLAB_SIZE ex_cfg) /\
  debug_slab_invariant (with_debug_checks ex_cfg) acyclic_fuel false
    (heap ex_state) (meta ex_state) ex_slab
  = Some (Ok tt).
Proof.
  apply (accounting_invariant ex_cfg false ex_slab 2 ex_state).
  - ex_layout.
  - apply (blocks_aligned_plain ex_cfg false 2);
      [ex_layout | intros x; reflexivity].
  - ex_state_reached.
Defined.

(** C3, the sum as the claim has it: on the slab of 48-byte blocks whose
    first block is at offset 16, in the state reached by two claims and a
    release, the slab is not full and used blocks, free-list blocks, bump
    headroom and the link block add up to 65520 bytes, not to the 65536 of
    SLAB_SIZE: the 16 bytes in front of the first block are missing. *)
Lemma accounting_without_offset_fails :
  layout ex_cfg false 2 /\
  reachable ex_cfg false ex_slab 2 ex_state /\
  is_full ex_cfg (meta ex_state) = false /\
  forall nodes term,
    segment ex_cfg (heap ex_state) ex_slab
      (Mod_get ex_cfg (head (meta ex_state))) nodes term ->
    accounted_blocks_only ex_cfg (meta ex_state) nodes term = 65520 /\
    accounted_blocks_only ex_cfg (meta ex_state) nodes term
    <> SLAB_SIZE ex_cfg.
Proof.
  split; [ex_layout|]; split; [ex_state_reached|]; split; [reflexivity|].
  intros nodes term Hseg.
  assert (Hex : segment ex_cfg (heap ex_state) ex_slab
                  (Mod_get ex_cfg (head (meta ex_state))) [64] 161).
  { apply (segment_step ex_cfg ex_mem ex_slab 64 161 [] 161);
      [reflexivity | reflexivity |].
    apply segment_end; reflexivity. }
  destruct (segment_unique _ _ _ _ _ _ _ _ Hseg Hex) as [-> ->].
  split; [reflexivity | discriminate].
Qed.

Lemma fullness_equivalence_witness :
  is_full ex_cfg_small (meta ex_state_full)
  = (Mod_get ex_cfg_small (link (meta ex_state_full)) =? 1) /\
  (is_full ex_cfg_small (meta ex_state_full) = true <->
   every_block_claimed ex_cfg_small false 2 ex_state_full /\
   Mod_get ex_cfg_small (head (meta ex_state_full)) = 1) /\
  (is_full ex_cfg_small (meta ex_state_full) = true ->
   every_block_used ex_cfg_small false (meta ex_state_full)).
Proof.
  apply (fullness_equivalence ex_cfg_small false ex_slab 2 ex_state_full).
  - ex_layout.
  - ex_state_full_reached.
Defined.

Lemma free_list_segment_invariant_witness :
  exists nodes term,
    segment ex_cfg (heap ex_state) ex_slab
      (Mod_get ex_cfg (head (meta ex_state))) nodes term /\
    bump_tagged term = true /\
    NoDup nodes /\
    Z.of_nat (List.length nodes) <= blocks_in_slab ex_cfg false 2 /\
    Z.of_nat (List.length nodes) + used (meta ex_state)
    < blocks_in_slab ex_cfg false 2 /\
    ~ In (Mod_get ex_cfg (link (meta ex_state))) nodes.
Proof.
  apply (free_list_segment_invariant ex_cfg false ex_slab 2 ex_state).
  - ex_layout.
  - ex_state_reached.
  - reflexivity.
Defined.

